(** * gidari: storage dispatch, the Mongo transaction worker and request flattening

    A shallow embedding of [internal/storage/storage.go],
    [internal/storage/mongo.go] and [internal/transport/request.go].

    Conventions used throughout:
    - a Go [error] value is an [error] tree ([errorString] for [errors.New] and
      [fmt.Errorf] without [%w], [wrapError] for [fmt.Errorf] with [%w]); the
      nil error is [None];
    - a Go multi-value return [(T, error)] is a pair of options, exactly as
      the code returns it ([nil, err] is [(None, Some err)]);
    - a Go [panic] is the [Panicked] outcome; it is never confused with an
      error return;
    - libraries that are not part of the repository (the MongoDB driver,
      [net/url], [time], [x/time/rate]) are interfaces: type classes whose
      methods the code calls. *)

From Stdlib Require Import ZArith String Ascii List Bool Lia Sorted.
From stdpp Require Import base option list gmap strings fin_maps pretty.

Local Open Scope string_scope.
Local Open Scope Z_scope.
Local Open Scope list_scope.

(** ** Go runtime: errors, panics, [strings.Contains] *)

Module goerr.

(** [*errors.errorString] and [*fmt.wrapError]. *)
Inductive error : Type :=
| errorString (s : string)
| wrapError (msg : string) (err : error).

#[global] Instance error_eq_dec : EqDecision error.
Proof. solve_decision. Defined.

(** [err.Error()] *)
Definition Error (e : error) : string :=
  match e with
  | errorString s => s
  | wrapError msg _ => msg
  end.

(** [errors.Unwrap(err)] *)
Definition Unwrap (e : error) : option error :=
  match e with
  | errorString _ => None
  | wrapError _ err => Some err
  end.

(** [errors.New(s)], also what [fmt.Errorf(s)] builds when the format has no
    [%w] verb. *)
Definition errors_New (s : string) : error := errorString s.

(** [fmt.Errorf(prefix + "%w", err)]: the message is the formatted text, the
    wrapped error stays reachable through [Unwrap]. *)
Definition Errorf_w (prefix : string) (err : error) : error :=
  wrapError (prefix +:+ Error err) err.

(** [errors.Is(err, target)]: walks the [Unwrap] chain.  Go compares the
    error values with [==]; the model compares the trees. *)
Fixpoint errors_Is (e target : error) : bool :=
  bool_decide (e = target) ||
  match e with
  | errorString _ => false
  | wrapError _ err => errors_Is err target
  end.

(** What a call can do besides returning: panic.  [nil pointer dereference]
    and [assignment to entry in nil map] are runtime panics, [panic(err)] an
    explicit one. *)
Inductive panic_value : Type :=
| NilPointerDereference
| NilMapAssignment
| PanicError (e : error).

Inductive outcome (A : Type) : Type :=
| Returned (a : A)
| Panicked (p : panic_value).
Arguments Returned {A} a.
Arguments Panicked {A} p.

#[global] Instance outcome_ret : MRet outcome := fun _ a => Returned a.
#[global] Instance outcome_bind : MBind outcome := fun _ _ k x =>
  match x with
  | Returned a => k a
  | Panicked p => Panicked p
  end.

(** [strings.Contains(s, substr)] *)
Fixpoint Contains (s substr : string) : bool :=
  String.prefix substr s ||
  match s with
  | EmptyString => false
  | String _ s' => Contains s' substr
  end.

End goerr.

(** ** internal/storage/storage.go *)

Module storage.
Import goerr.

(** [const ( MongoType uint8 = iota; PostgresType )] *)
Definition MongoType : Z := 0.
Definition PostgresType : Z := 1.

(** [var ErrDNSNotSupported = fmt.Errorf("dns is not supported")] *)
Definition ErrDNSNotSupported : error := errors_New "dns is not supported".

(** [fmt.Errorf("%w: %s", ErrDNSNotSupported, dns)] *)
Definition DNSNotSupportedError (dns : string) : error :=
  wrapError (Error ErrDNSNotSupported +:+ ": " +:+ dns) ErrDNSNotSupported.

Definition Scheme (t : Z) : string :=
  if decide (t = MongoType) then "mongodb"
  else if decide (t = PostgresType) then "postgresql"
  else "unknown".

(** [const defaultMDBLifetime = 60 * time.Second], in nanoseconds. *)
Definition defaultMDBLifetime : Z := 60 * 1000000000.

Section Dispatch.
(** [*mongo.Client] and the driver's [mongo.Connect(ctx, ApplyURI(uri))]. *)
Context {Client : Type} (mongo_Connect : string -> Client + error).
(** The relational backend lives in [postgres.go], which is not part of the
      sources at hand: its handle type and constructor are parameters. *)
Context {Postgres : Type} (NewPostgres : string -> option Postgres * option error).

Record Mongo : Type := mkMongo {
    mongo_Client : Client;
    mongo_dns : string;
    mongo_lifetime : Z;
  }.

Definition NewMongo (uri : string) : option Mongo * option error :=
    match mongo_Connect uri with
    | inr err => (None, Some (Errorf_w "error connecting to mongo: " err))
    | inl client =>
        (Some {| mongo_Client := client; mongo_dns := uri;
                 mongo_lifetime := defaultMDBLifetime |}, None)
    end.

Definition Mongo_IsNoSQL (m : Mongo) : bool := true.
Definition Mongo_Type (m : Mongo) : Z := MongoType.

(** A non-nil [Storage] interface value: the implementation it holds and the
    pointer inside, which may be nil. *)
Inductive Storage : Type :=
  | StorageMongo (m : option Mongo)
  | StoragePostgres (p : option Postgres).

(** [return NewMongo(ctx, dns)] in a function that returns [(Storage, error)]:
    the pointer is converted to the interface whether it is nil or not, so
    the [Storage] returned is never the nil interface; after a failed
    constructor it holds a nil pointer and comes with the error. *)
Definition as_Storage {A} (inj : option A -> Storage) (r : option A * option error)
    : option Storage * option error :=
    (Some (inj r.1), r.2).

Definition New (dns : string) : option Storage * option error :=
    if Contains dns (Scheme MongoType) then
      as_Storage StorageMongo (NewMongo dns)
    else if Contains dns (Scheme PostgresType) then
      as_Storage StoragePostgres (NewPostgres dns)
    else (None, Some (DNSNotSupportedError dns)).
End Dispatch.

Arguments Mongo : clear implicits.
Arguments Storage : clear implicits.

(** ** internal/storage/mongo.go: the transaction worker *)

(** Modelled from the spec: [ErrTransactionAborted] is declared in a file of
    the package that is not among the sources; the spec calls it the
    [AbortedError].  Only its identity is used. *)
Definition ErrTransactionAborted : error := errors_New "transaction aborted".

(** [mongo.SessionContext]: the three driver calls the worker makes on the
    live session, and [EndSession], which [UseSession] defers.  [St] is the
    state behind the session (what the server and the driver know about
    it); the three transaction calls return the new state and the Go error;
    [EndSession] returns nothing: it ends the session, and the driver
    aborts a transaction that is still in progress. *)
Class SessionContext (St : Type) : Type := {
  StartTransaction : St -> St * option error;
  CommitTransaction : St -> St * option error;
  AbortTransaction : St -> St * option error;
  EndSession : St -> St;
}.

(** Modelled from the spec: the declaration of [TxnChanFn] is not among the
    sources; the worker calls it as [opr(ctx, m)] and takes an [error] from
    it.  An operation ("a closure-like value capturing the intent together
    with its required side-effectful action against the current session")
    acts on the session it is given. *)
Definition TxnChanFn (St : Type) : Type := St -> St * option error.

(** History of what the worker did to the session: driver calls, and the
    invocation of the [i]-th operation received from the channel (counted
    from 0).  The history is ghost state: the code does not keep it. *)
Inductive call : Type :=
| CallStart
| CallCommit
| CallAbort
| CallApply (i : nat).

#[global] Instance call_eq_dec : EqDecision call.
Proof. solve_decision. Defined.

(** The session context with its history. *)
Record sctx (St : Type) : Type := mkSctx {
  sess : St;
  history : list call;
}.
Arguments mkSctx {St} sess history.
Arguments sess {St} s.
Arguments history {St} s.

(** What the worker observes while it ranges over [txn.ch]: the ticker puts a
    tick into [lifetimeTicker.C] (capacity 1), or the next operation arrives
    on [txn.ch].  The list ends when the channel is closed.  When the ticks
    fall is decided by [m.lifetime] and by the clock; a schedule is any
    interleaving of ticks and operations, so what holds of every schedule
    holds of every lifetime. *)
Inductive chan_event (St : Type) : Type :=
| Tick
| Recv (opr : TxnChanFn St).
Arguments Tick {St}.
Arguments Recv {St} opr.

(** The value the caller leaves on [txn.commit] (capacity 1), or the channel
    closed without a value. *)
Inductive commit_signal : Type :=
| SignalCommit
| SignalRollback
| SignalClosed.

(** [<-txn.commit]: a closed channel yields the zero value [false]. *)
Definition recv_commit (sig : commit_signal) : bool :=
  match sig with
  | SignalCommit => true
  | SignalRollback | SignalClosed => false
  end.

(** Modelled from the spec: the declaration of [Txn] is not among the
    sources; [StartTx] builds it from an operation channel, an error channel
    of capacity 1 and a commit channel of capacity 1, which the worker uses
    as [txn.ch], [txn.done] and [txn.commit].  [ch] is consumed through the
    schedule of [chan_event]s; [txn_done] holds the values sent on [done] so
    far; [txn_commit] is what the caller leaves on [commit]. *)
Record Txn : Type := mkTxn {
  txn_done : list (option error);
  txn_commit : commit_signal;
}.

(** Local variables of [receiveWrites]: [ctx], [err], whether a tick is
    buffered in [lifetimeTicker.C], and (ghost) the number of operations
    received so far. *)
Record loop_state (St : Type) : Type := mkLoop {
  l_ctx : sctx St;
  l_err : option error;
  l_tick : bool;
  l_recv : nat;
}.
Arguments mkLoop {St} l_ctx l_err l_tick l_recv.
Arguments l_ctx {St} l.
Arguments l_err {St} l.
Arguments l_tick {St} l.
Arguments l_recv {St} l.

Section Worker.
Context {St : Type} `{!SessionContext St}.

Definition ctx_StartTransaction (c : sctx St) : sctx St * option error :=
  let '(s, e) := StartTransaction (sess c) in
  (mkSctx s (history c ++ [CallStart]), e).

Definition ctx_CommitTransaction (c : sctx St) : sctx St * option error :=
  let '(s, e) := CommitTransaction (sess c) in
  (mkSctx s (history c ++ [CallCommit]), e).

Definition ctx_AbortTransaction (c : sctx St) : sctx St * option error :=
  let '(s, e) := AbortTransaction (sess c) in
  (mkSctx s (history c ++ [CallAbort]), e).

(** [opr(ctx, m)] for the [i]-th operation received. *)
Definition ctx_apply (i : nat) (opr : TxnChanFn St) (c : sctx St) : sctx St * option error :=
  let '(s, e) := opr (sess c) in
  (mkSctx s (history c ++ [CallApply i]), e).

(** The [case <-lifetimeTicker.C] branch of the select. *)
Definition rotate (c : sctx St) : outcome (sctx St) :=
  let '(c1, e1) := ctx_CommitTransaction c in
  match e1 with
  | Some err => Panicked (PanicError (Errorf_w "commit transaction: " err))
  | None =>
      let '(c2, e2) := ctx_StartTransaction c1 in
      match e2 with
      | Some err => Panicked (PanicError (Errorf_w "error starting transaction: " err))
      | None => Returned c2
      end
  end.

(** One observation of the worker.  A [Tick] only fills the ticker's buffer.
    A [Recv opr] is one iteration of [for opr := range txn.ch]: the select
    takes the ticker case when a tick is buffered, the default otherwise. *)
Definition receive_step (l : loop_state St) (ev : chan_event St) : outcome (loop_state St) :=
  match ev with
  | Tick => Returned (mkLoop (l_ctx l) (l_err l) true (l_recv l))
  | Recv opr =>
      let i := l_recv l in
      if l_tick l then
        c ← rotate (l_ctx l);
        Returned (mkLoop c (l_err l) false (S i))
      else
        match l_err l with
        | Some _ => Returned (mkLoop (l_ctx l) (l_err l) false (S i))
        | None =>
            let '(c, e) := ctx_apply i opr (l_ctx l) in
            Returned (mkLoop c e false (S i))
        end
  end.

Fixpoint receive_loop (sched : list (chan_event St)) (l : loop_state St) : outcome (loop_state St) :=
  match sched with
  | [] => Returned l
  | ev :: sched' => l' ← receive_step l ev; receive_loop sched' l'
  end.

(** [func (m *Mongo) receiveWrites(ctx, txn) error], with the final [ctx]. *)
Definition receiveWrites (sched : list (chan_event St)) (ctx : sctx St)
  : outcome (sctx St * option error) :=
  l ← receive_loop sched (mkLoop ctx None false 0%nat);
  match l_err l with
  | Some err => Returned (l_ctx l, Some (Errorf_w "error in transaction: " err))
  | None => Returned (l_ctx l, None)
  end.

(** The callback [startSession] hands to [UseSession]. *)
Definition session_body (sched : list (chan_event St)) (txn : Txn) (c : sctx St)
  : outcome (sctx St * option error) :=
  let '(c1, e1) := ctx_StartTransaction c in
  match e1 with
  | Some err => Returned (c1, Some (Errorf_w "error starting transaction: " err))
  | None =>
      '(c2, e2) ← receiveWrites sched c1;
      match e2 with
      | Some err => Returned (c2, Some (Errorf_w "error receiving writes: " err))
      | None =>
          if recv_commit (txn_commit txn) then
            let '(c3, e3) := ctx_CommitTransaction c2 in
            match e3 with
            | Some err => Returned (c3, Some (Errorf_w "commit transaction: " err))
            | None => Returned (c3, None)
            end
          else
            let '(c3, e3) := ctx_AbortTransaction c2 in
            match e3 with
            | Some _ => Returned (c3, Some ErrTransactionAborted)
            | None => Returned (c3, None)
            end
      end
  end.

(** The deferred [sess.EndSession(ctx)] of [UseSession].  It is the driver's
    call, not the worker's, so the history, which is of the worker's calls,
    does not record it. *)
Definition ctx_EndSession (c : sctx St) : sctx St :=
  mkSctx (EndSession (sess c)) (history c).

(** [m.Client.UseSession(ctx, fn)]: the driver starts a session ([fresh] is
    what [StartSession] gave: the session or the error), runs [fn] on it,
    ends the session when [fn] returns, and returns [fn]'s error. *)
Definition UseSession (fresh : St + error)
    (fn : sctx St -> outcome (sctx St * option error))
  : outcome (option (sctx St) * option error) :=
  match fresh with
  | inr err => Returned (None, Some err)
  | inl s => '(c, e) ← fn (mkSctx s []); Returned (Some (ctx_EndSession c), e)
  end.

(** [func (m *Mongo) startSession(ctx, txn)]: the result of [UseSession] is
    sent on [txn.done].  Returns the [Txn] and the session as [UseSession]
    leaves them. *)
Definition startSession (fresh : St + error) (sched : list (chan_event St)) (txn : Txn)
  : outcome (Txn * option (sctx St)) :=
  '(c, e) ← UseSession fresh (session_body sched txn);
  Returned (mkTxn (txn_done txn ++ [e]) (txn_commit txn), c).

(** [func (m *Mongo) StartTx(ctx)], returning [*Txn] and [error]: the three
    fresh channels;
    [sig] is what the caller will leave on [commit].  The goroutine it spawns
    is [startSession] on this [Txn]. *)
Definition StartTx (sig : commit_signal) : option Txn * option error :=
  (Some (mkTxn [] sig), None).

(** The operations invoked, in invocation order. *)
Definition applied (h : list call) : list nat :=
  omap (fun c => match c with CallApply i => Some i | _ => None end) h.

(** The driver calls that end or begin a physical transaction. *)
Definition is_driver_call (c : call) : bool :=
  match c with
  | CallApply _ => false
  | _ => true
  end.

Definition driver_calls (h : list call) : list call := List.filter is_driver_call h.

(** The panics of the rotation branch: [panic(fmt.Errorf(...))] after a failed
    commit or a failed restart. *)
Definition rotation_panic (p : panic_value) : Prop :=
  exists err, p = PanicError (Errorf_w "commit transaction: " err)
              \/ p = PanicError (Errorf_w "error starting transaction: " err).

(** The operations the producers sent, in sending order. *)
Definition sent (sched : list (chan_event St)) : list (TxnChanFn St) :=
  omap (fun ev => match ev with Recv opr => Some opr | Tick => None end) sched.
End Worker.

(** ** internal/storage/mongo.go: [Upsert] *)

(** Modelled from the spec: [proto.UpsertRequest] is declared in the [proto]
    package, which is not among the sources: the destination table (read as
    [req.Table]) and the encoded payload. *)
Record UpsertRequest : Type := mkUpsertRequest {
  req_Table : string;
  req_Data : list Z;
}.

(** Modelled from the spec: [proto.UpsertResponse], declared in the [proto]
    package, with the two counts [Upsert] fills; its zero value
    [proto.UpsertResponse{}] has both counts 0. *)
Record UpsertResponse : Type := mkUpsertResponse {
  MatchedCount : Z;
  UpsertedCount : Z;
}.

Definition UpsertResponse_zero : UpsertResponse := mkUpsertResponse 0 0.

(** [*mongo.BulkWriteResult], the fields [Upsert] reads. *)
Record BulkWriteResult : Type := mkBulkWriteResult {
  bwr_MatchedCount : Z;
  bwr_UpsertedCount : Z;
}.

(** [mongo.NewUpdateOneModel().SetFilter(doc).SetUpdate(bson.D{{"$set", doc}}).SetUpsert(true)] *)
Record UpdateOneModel (Doc : Type) : Type := mkUpdateOneModel {
  um_Filter : Doc;
  um_Update : string * Doc;
  um_Upsert : bool;
}.
Arguments mkUpdateOneModel {Doc} um_Filter um_Update um_Upsert.

(** A request that reached the database server. *)
Inductive db_call (Doc : Type) : Type :=
| DbBulkWrite (database collection : string) (models : list (UpdateOneModel Doc)).
Arguments DbBulkWrite {Doc} database collection models.

Section Upsert.
(** [tools.DecodeUpsertRecords] and [tools.AssingRecordBSONDocument] belong to
    the repository's [tools] package, [connstring.ParseAndValidate] and
    [Collection.BulkWrite] to the driver; none is in the sources at hand, so
    all four are parameters.  [Db] is the state of the server, and
    [ParseAndValidate] yields the database name of the connection string. *)
Context {Rec Doc Db Client : Type}.
Context (DecodeUpsertRecords : UpsertRequest -> list Rec + error).
Context (AssingRecordBSONDocument : Rec -> Doc + error).
Context (connstring_ParseAndValidate : string -> string + error).
Context (BulkWrite : Db -> string -> string -> list (UpdateOneModel Doc) -> Db * (BulkWriteResult + error)).

(** The server with the log of the requests sent to it (ghost). *)
Record server : Type := mkServer {
  srv_db : Db;
  srv_log : list (db_call Doc);
}.

(** The [for _, record := range records] loop: the models built so far, or
    the error of the first record that cannot be converted. *)
Fixpoint build_models (records : list Rec) (models : list (UpdateOneModel Doc))
  : list (UpdateOneModel Doc) + error :=
  match records with
  | [] => inl models
  | record :: records' =>
      match AssingRecordBSONDocument record with
      | inr err => inr (Errorf_w "failed to assign record to bson document: " err)
      | inl doc =>
          build_models records' (models ++ [mkUpdateOneModel doc ("$set", doc) true])
      end
  end.

Definition Upsert (m : Mongo Client) (req : UpsertRequest) (srv : server)
  : (option UpsertResponse * option error) * server :=
  match DecodeUpsertRecords req with
  | inr err => ((None, Some (Errorf_w "failed to decode records: " err)), srv)
  | inl records =>
      if decide (length records = 0%nat) then ((Some UpsertResponse_zero, None), srv)
      else
        match build_models records [] with
        | inr err => ((None, Some err), srv)
        | inl models =>
            match connstring_ParseAndValidate (mongo_dns m) with
            | inr err => ((None, Some (Errorf_w "failed to parse connection string: " err)), srv)
            | inl database =>
                let '(db, r) := BulkWrite (srv_db srv) database (req_Table req) models in
                let srv' := mkServer db (srv_log srv ++ [DbBulkWrite database (req_Table req) models]) in
                match r with
                | inr err => ((None, Some (Errorf_w "bulk write error: " err)), srv')
                | inl bwr =>
                    ((Some (mkUpsertResponse (bwr_MatchedCount bwr) (bwr_UpsertedCount bwr)), None), srv')
                end
            end
        end
  end.
End Upsert.

(** ** internal/storage/mongo.go: [Truncate], [ListTables], [ListPrimaryKeys] *)

(** Modelled from the spec: [proto.TruncateRequest] is declared in the
    [proto] package, which is not among the sources; [Truncate] reads its
    list of tables ([req.Tables], [req.GetTables()]). *)
Record TruncateRequest : Type := mkTruncateRequest {
  req_Tables : list string;
}.

(** Modelled from the spec: [proto.TruncateResponse], "empty on success". *)
Inductive TruncateResponse : Type :=
| TruncateResponse_zero.

(** Modelled from the spec: [proto.ListTablesResponse], whose [TableSet] is a
    [map[string]bool]. *)
Record ListTablesResponse : Type := mkListTablesResponse {
  TableSet : gmap string bool;
}.

(** Modelled from the spec: [proto.PrimaryKeys], the list of key names of
    one table, and [proto.ListPrimaryKeysResponse], whose [PKSet] maps a
    table to its [*proto.PrimaryKeys] (a missing key reads as nil). *)
Record PrimaryKeys : Type := mkPrimaryKeys {
  pk_List : list string;
}.

Record ListPrimaryKeysResponse : Type := mkListPrimaryKeysResponse {
  PKSet : gmap string PrimaryKeys;
}.

(** A request of [Truncate] or [ListTables] that reached the server. *)
Inductive coll_call : Type :=
| DbDeleteMany (database collection : string)
| DbListCollectionNames (database : string).

Section Collections.
(** [connstring.ParseAndValidate] (yielding the database name),
    [Collection.DeleteMany(ctx, bson.M{})], whose result the code drops, and
    [Database.ListCollectionNames(ctx, bson.D{})] are the driver's. *)
Context {Db Client : Type}.
Context (connstring_ParseAndValidate : string -> string + error).
Context (DeleteMany : Db -> string -> string -> Db * option error).
Context (ListCollectionNames : Db -> string -> Db * (list string + error)).

(** The server with the log of the requests sent to it (ghost). *)
Record store : Type := mkStore {
  st_db : Db;
  st_log : list coll_call;
}.

(** The database after [DeleteMany] has been sent for each of [tables] in
    turn, whatever the replies. *)
Definition delete_all (database : string) (tables : list string) (db : Db) : Db :=
  foldl (fun db collection => (DeleteMany db database collection).1) db tables.

(** The [for _, collection := range req.GetTables()] loop of [Truncate]. *)
Fixpoint truncate_collections (database : string) (tables : list string) (st : store)
  : option error * store :=
  match tables with
  | [] => (None, st)
  | collection :: tables' =>
      let '(db, err) := DeleteMany (st_db st) database collection in
      let st' := mkStore db (st_log st ++ [DbDeleteMany database collection]) in
      match err with
      | Some err =>
          (Some (Errorf_w ("error truncating collection " +:+ collection +:+ ": ") err), st')
      | None => truncate_collections database tables' st'
      end
  end.

Definition Truncate (m : Mongo Client) (req : TruncateRequest) (st : store)
  : (option TruncateResponse * option error) * store :=
  if decide (length (req_Tables req) = 0%nat) then ((Some TruncateResponse_zero, None), st)
  else
    match connstring_ParseAndValidate (mongo_dns m) with
    | inr err => ((None, Some (Errorf_w "failed to parse connstring: " err)), st)
    | inl database =>
        match truncate_collections database (req_Tables req) st with
        | (Some err, st') => ((None, Some err), st')
        | (None, st') => ((Some TruncateResponse_zero, None), st')
        end
    end.

(** [for _, collection := range collections { rsp.TableSet[collection] = true }] *)
Definition table_set (collections : list string) : gmap string bool :=
  foldl (fun set collection => <[collection := true]> set) ∅ collections.

Definition ListTables (m : Mongo Client) (st : store)
  : (option ListTablesResponse * option error) * store :=
  match connstring_ParseAndValidate (mongo_dns m) with
  | inr err => ((None, Some (Errorf_w "failed to parse connection string: " err)), st)
  | inl database =>
      let '(db, r) := ListCollectionNames (st_db st) database in
      let st' := mkStore db (st_log st ++ [DbListCollectionNames database]) in
      match r with
      | inr err => ((None, Some (Errorf_w "failed to list collections: " err)), st')
      | inl collections => ((Some (mkListTablesResponse (table_set collections)), None), st')
      end
  end.

(** The body of the loop of [ListPrimaryKeys]: a nil entry is first set to an
    empty [PrimaryKeys], then ["_id"] is appended to the entry's list. *)
Definition add_id (collection : string) (pkset : gmap string PrimaryKeys)
  : gmap string PrimaryKeys :=
  let pkset' :=
    match pkset !! collection with
    | None => <[collection := mkPrimaryKeys []]> pkset
    | Some _ => pkset
    end in
  alter (fun pk => mkPrimaryKeys (pk_List pk ++ ["_id"])) collection pkset'.

Definition ListPrimaryKeys (m : Mongo Client) (st : store)
  : (option ListPrimaryKeysResponse * option error) * store :=
  match ListTables m st with
  | ((_, Some err), st') => ((None, Some (Errorf_w "error listing collections: " err)), st')
  | ((collections, None), st') =>
      let tables := default ∅ (TableSet <$> collections) in
      ((Some (mkListPrimaryKeysResponse
                (map_fold (fun collection _ pkset => add_id collection pkset) ∅ tables)),
        None), st')
  end.
End Collections.

(** ** What a run of operations does to a session

    The operations of a list applied one after the other, each to the
    session the previous one left, up to and including the first that
    returns an error. *)
Fixpoint apply_all {St : Type} (oprs : list (TxnChanFn St)) (s : St) : St * option error :=
  match oprs with
  | [] => (s, None)
  | opr :: oprs' =>
      let '(s', e) := opr s in
      match e with
      | Some _ => (s', e)
      | None => apply_all oprs' s'
      end
  end.

End storage.

(** ** internal/transport/request.go *)

Module transport.
Import goerr.

(** [*url.URL]: [url_rest] stands for scheme, host, path and fragment, which
    the code never touches after parsing; [RawQuery] is the encoded query. *)
Record URL : Type := mkURL {
  url_rest : string;
  RawQuery : string;
}.

(** [url.Values], a [map[string][]string]. *)
Abbreviation Values := (gmap string (list string)).

(** [net/url]: [url.JoinPath], [url.Parse], [url.ParseQuery] (what [u.Query()]
    applies to [u.RawQuery], dropping malformed pairs) and [Values.Encode]. *)
Class NetURL : Type := {
  url_JoinPath : string -> string -> string + error;
  url_Parse : string -> URL + error;
  url_ParseQuery : string -> Values;
  Values_Encode : Values -> string;
}.

(** [time.Time] with [t.Format(layout)]. *)
Class TimeFormat (Time : Type) : Type := {
  Time_Format : Time -> string -> string;
}.

(** [rate.Limit]; [rate.Every(interval)] is [rate.Inf] for a non-positive
    interval and one event per [interval] (in nanoseconds) otherwise. *)
Inductive Limit : Type :=
| Inf
| OnePer (interval : Z).

Definition rate_Every (interval : Z) : Limit :=
  if decide (interval <= 0) then Inf else OnePer interval.

(** [*rate.Limiter] as [rate.NewLimiter(r, b)] builds it. *)
Record Limiter : Type := mkLimiter {
  lim_limit : Limit;
  lim_burst : Z;
}.

(** The objects the code shares by reference: Go maps (a [map[string]string]
    value is a reference into [h_maps]) and rate limiters (a [*rate.Limiter]
    is an index into [h_limiters]). *)
Record heap : Type := mkHeap {
  h_maps : gmap nat (gmap string string);
  h_limiters : list Limiter;
}.

(** Modelled from the spec: [RateLimitConfig] ("period + burst") is declared
    in a file of the package that is not among the sources; the two fields
    are the pointers [newFetchConfig] dereferences, [*int] and
    [*time.Duration]. *)
Record RateLimitConfig : Type := mkRateLimitConfig {
  Burst : option Z;
  Period : option Z;
}.

(** Modelled from the spec: [timeseries] ("startName, endName, layout,
    chunks: an ordered sequence of (start, end) timestamp pairs") is declared
    in a file of the package that is not among the sources; these are the
    fields [flattenTimeseries] reads.  [Layout] is a [*string], [chunks] a
    slice of [[2]time.Time]. *)
Record timeseries (Time : Type) : Type := mkTimeseries {
  StartName : string;
  EndName : string;
  Layout : option string;
  chunks : list (Time * Time);
}.
Arguments mkTimeseries {Time} StartName EndName Layout chunks.
Arguments StartName {Time} t.
Arguments EndName {Time} t.
Arguments Layout {Time} t.
Arguments chunks {Time} t.

(** [Request].  [Query] is a Go map: [None] is the nil map, [Some l] the map
    object at [l].  [Timeseries], [Table] and [RateLimitConfig] (here
    [RateLimit], the type has the name) are pointers that are only read. *)
Record Request (Time : Type) : Type := mkRequest {
  Method : string;
  Endpoint : string;
  Query : option nat;
  Timeseries : option (timeseries Time);
  Table : option string;
  RateLimit : option RateLimitConfig;
}.
Arguments mkRequest {Time} Method Endpoint Query Timeseries Table RateLimit.
Arguments Method {Time} r.
Arguments Endpoint {Time} r.
Arguments Query {Time} r.
Arguments Timeseries {Time} r.
Arguments Table {Time} r.
Arguments RateLimit {Time} r.

(** Modelled from the spec: [web.FetchConfig] is declared in the [web]
    package, which is not among the sources; these are the four fields
    [newFetchConfig] fills.  [fc_C] is the [*web.Client], [fc_RateLimiter]
    the [*rate.Limiter]. *)
Record FetchConfig (Client : Type) : Type := mkFetchConfig {
  fc_Method : string;
  fc_URL : URL;
  fc_C : Client;
  fc_RateLimiter : nat;
}.
Arguments mkFetchConfig {Client} fc_Method fc_URL fc_C fc_RateLimiter.
Arguments fc_Method {Client} f.
Arguments fc_URL {Client} f.
Arguments fc_C {Client} f.
Arguments fc_RateLimiter {Client} f.

Record flattenedRequest (Client : Type) : Type := mkFlattenedRequest {
  fetchConfig : FetchConfig Client;
  table : option string;
}.
Arguments mkFlattenedRequest {Client} fetchConfig table.
Arguments fetchConfig {Client} f.
Arguments table {Client} f.

(** [*p] for a pointer that may be nil. *)
Definition deref {A} (p : option A) : outcome A :=
  match p with
  | Some a => Returned a
  | None => Panicked NilPointerDereference
  end.

(** The contents of the map a [map[string]string] value refers to; ranging
    over the nil map visits nothing. *)
Definition map_contents (h : heap) (q : option nat) : gmap string string :=
  match q with
  | Some l => default ∅ (h_maps h !! l)
  | None => ∅
  end.

(** [q[k] = v]: writes into the map object [q] refers to, and panics on the
    nil map. *)
Definition map_assign (q : option nat) (k v : string) (h : heap) : outcome heap :=
  match q with
  | None => Panicked NilMapAssignment
  | Some l =>
      Returned (mkHeap (<[l := <[k := v]> (default ∅ (h_maps h !! l))]> (h_maps h)) (h_limiters h))
  end.

(** [rate.NewLimiter(r, b)]: a fresh limiter object and the pointer to it. *)
Definition rate_NewLimiter (r : Limit) (b : Z) (h : heap) : nat * heap :=
  (length (h_limiters h), mkHeap (h_maps h) (h_limiters h ++ [mkLimiter r b])).

(** [for key, value := range req.Query { query.Set(key, value) }] *)
Definition set_all (params : gmap string string) (query : Values) : Values :=
  map_fold (fun key value q => <[key := [value]]> q) query params.

Section Flatten.
Context `{!NetURL} {Time : Type} `{!TimeFormat Time} {Client : Type}.

(** A function that returns [(nil, err)] or [(&v, nil)] returns [inr err] or
    [inl v]; the heap is threaded through. *)
Definition newFetchConfig (req : Request Time) (rawURI : string) (client : Client) (h : heap)
  : outcome ((FetchConfig Client + error) * heap) :=
  match url_JoinPath rawURI (Endpoint req) with
  | inr err => Returned (inr (Errorf_w "failed to join URI and endpoint: " err), h)
  | inl rawURIWithEndpoint =>
      match url_Parse rawURIWithEndpoint with
      | inr err => Returned (inr (Errorf_w "failed to parse URL: " err), h)
      | inl uri =>
          let uri :=
            match Query req with
            | None => uri
            | Some _ =>
                let query := set_all (map_contents h (Query req)) (url_ParseQuery (RawQuery uri)) in
                mkURL (url_rest uri) (Values_Encode query)
            end in
          cfg ← deref (RateLimit req);
          period ← deref (Period cfg);
          burst ← deref (Burst cfg);
          let '(rateLimiter, h') := rate_NewLimiter (rate_Every period) burst h in
          Returned (inl (mkFetchConfig (Method req) uri client rateLimiter), h')
      end
  end.

(** The error [newFetchConfig] reports when the URL cannot be built. *)
Definition url_error (rawURI endpoint : string) : option error :=
  match url_JoinPath rawURI endpoint with
  | inr err => Some (Errorf_w "failed to join URI and endpoint: " err)
  | inl rawURIWithEndpoint =>
      match url_Parse rawURIWithEndpoint with
      | inr err => Some (Errorf_w "failed to parse URL: " err)
      | inl _ => None
      end
  end.

Definition flatten (req : Request Time) (rawURI : string) (client : Client) (h : heap)
  : outcome ((flattenedRequest Client + error) * heap) :=
  '(r, h') ← newFetchConfig req rawURI client h;
  match r with
  | inr err => Returned (inr (Errorf_w "failed to create fetch config: " err), h')
  | inl fc => Returned (inl (mkFlattenedRequest fc (Table req)), h')
  end.

(** The [for _, chunk := range timeseries.chunks] loop; [requests] is the
    slice built so far.  [chunkReq := req] copies the pointer, so [chunkReq]
    is [req] and [chunkReq.Query] is the caller's map. *)
Fixpoint flatten_chunks (req : Request Time) (ts : timeseries Time) (rawURI : string)
    (client : Client) (todo : list (Time * Time))
    (requests : list (flattenedRequest Client)) (h : heap)
  : outcome ((list (flattenedRequest Client) * option error) * heap) :=
  match todo with
  | [] => Returned ((requests, None), h)
  | chunk :: todo' =>
      let chunkReq := req in
      layout ← deref (Layout ts);
      h1 ← map_assign (Query chunkReq) (StartName ts) (Time_Format chunk.1 layout) h;
      layout ← deref (Layout ts);
      h2 ← map_assign (Query chunkReq) (EndName ts) (Time_Format chunk.2 layout) h1;
      '(r, h3) ← newFetchConfig chunkReq rawURI client h2;
      match r with
      | inr err => Returned (([], Some (Errorf_w "failed to create fetch config: " err)), h3)
      | inl fc =>
          flatten_chunks req ts rawURI client todo'
            (requests ++ [mkFlattenedRequest fc (Table req)]) h3
      end
  end.

(** [flattenTimeseries] returns the slice and the error as Go does: on an
    error the slice is nil. *)
Definition flattenTimeseries (req : Request Time) (rawURI : string) (client : Client) (h : heap)
  : outcome ((list (flattenedRequest Client) * option error) * heap) :=
  match Timeseries req with
  | None =>
      '(r, h') ← flatten req rawURI client h;
      match r with
      | inr err => Returned (([], Some (Errorf_w "failed to flatten request: " err)), h')
      | inl flatReq => Returned (([flatReq], None), h')
      end
  | Some ts => flatten_chunks req ts rawURI client (chunks ts) [] h
  end.
End Flatten.

End transport.

(** ** Concrete collaborators

    Small executable instances of the interfaces above, used to run the code
    on concrete inputs. *)

Module fixtures.
Import goerr storage transport.

(** *** A session with an in-memory transactional store

    Writes made inside a transaction are staged; [CommitTransaction] makes
    them durable, [AbortTransaction] discards them.  The calls fail as the
    driver's do when no transaction is in progress, or one already is. *)
Record mem_session : Type := mkMem {
  in_txn : bool;
  staged : list Z;
  durable : list Z;
}.

#[global] Instance mem_SessionContext : SessionContext mem_session := {
  StartTransaction s :=
    if in_txn s then (s, Some (errors_New "transaction already in progress"))
    else (mkMem true [] (durable s), None);
  CommitTransaction s :=
    if in_txn s then (mkMem false [] (durable s ++ staged s), None)
    else (s, Some (errors_New "no transaction started"));
  AbortTransaction s :=
    if in_txn s then (mkMem false [] (durable s), None)
    else (s, Some (errors_New "no transaction started"));
  EndSession s :=
    if in_txn s then mkMem false [] (durable s) else s;
}.

Definition fresh_session : mem_session := mkMem false [] [].

(** An operation that writes [v]. *)
Definition op_insert (v : Z) : TxnChanFn mem_session := fun s =>
  if in_txn s then (mkMem true (staged s ++ [v]) (durable s), None)
  else (mkMem false [] (durable s ++ [v]), None).

(** An operation that fails without writing. *)
Definition op_fail (msg : string) : TxnChanFn mem_session := fun s =>
  (s, Some (errors_New msg)).

(** An operation that aborts the transaction it runs in. *)
Definition op_abort : TxnChanFn mem_session := fun s => AbortTransaction s.

(** A write that the server refuses: the operation returns the error and the
    server has aborted the transaction. *)
Definition op_write_error (msg : string) : TxnChanFn mem_session := fun s =>
  (mkMem false [] (durable s), Some (errors_New msg)).

(** *** Backends for [New] *)

Definition connect (uri : string) : string + error :=
  if String.prefix "mongodb://" uri then inl uri
  else inr (errors_New "error parsing uri: scheme must be mongodb or mongodb+srv").

Definition new_postgres (dns : string) : option string * option error :=
  (Some dns, None).

(** *** Collaborators of [Upsert]: records and documents are numbers, the
    database is the list of stored documents *)

Definition decode (req : UpsertRequest) : list Z + error := inl (req_Data req).

Definition assign (record : Z) : Z + error :=
  if decide (record < 0) then inr (errors_New "negative record") else inl record.

Definition parse_connstring (dns : string) : string + error := inl "gidari".

Definition bulk_write (db : list Z) (database collection : string)
    (models : list (UpdateOneModel Z)) : list Z * (BulkWriteResult + error) :=
  let docs : list Z := um_Filter Z <$> models in
  let matched : list Z := filter (fun d => d ∈ db) docs in
  let upserted : list Z := filter (fun d => d ∉ db) docs in
  ((db ++ upserted)%list, inl (mkBulkWriteResult (Z.of_nat (length matched)) (Z.of_nat (length upserted)))).

(** *** The driver calls of [Truncate] and [ListTables]: the database is a
    list of collections with their documents; a collection named
    ["locked"] cannot be emptied *)

Definition delete_many (db : list (string * list Z)) (database collection : string)
  : list (string * list Z) * option error :=
  if decide (collection = "locked") then (db, Some (errors_New "not authorized"))
  else ((fun kv => if decide (kv.1 = collection) then (kv.1, []) else kv) <$> db, None).

Definition list_collection_names (db : list (string * list Z)) (database : string)
  : list (string * list Z) * (list string + error) :=
  (db, inl (fst <$> db)).

(** *** [net/url] and [time]

    A plain stand-in for [net/url]: joining concatenates, a blank makes a
    URL invalid, pairs are written [key=value] and joined by [&] in the
    map's own order, without escaping. *)

Fixpoint fields_aux (sep : ascii) (s : string) (acc : string) : list string :=
  match s with
  | EmptyString => [String.rev acc]
  | String c s' =>
      if Ascii.eqb c sep then String.rev acc :: fields_aux sep s' EmptyString
      else fields_aux sep s' (String c acc)
  end.

Definition fields (sep : ascii) (s : string) : list string := fields_aux sep s EmptyString.

Definition parse_pair (kv : string) (q : Values) : Values :=
  match fields "=" kv with
  | [] | [EmptyString] => q
  | k :: vs => <[k := (default [] (q !! k) ++ [String.concat "=" vs])%list]> q
  end.

Definition parse_query (raw : string) : Values := foldr parse_pair ∅ (rev (fields "&" raw)).

Definition encode_values (q : Values) : string :=
  String.concat "&"
    (flat_map (fun kv => (fun v => fst kv +:+ "=" +:+ v) <$> snd kv) (map_to_list q)).

#[global] Instance plain_url : NetURL := {
  url_JoinPath base elem :=
    if Contains base " " then inr (errors_New "invalid character in host name")
    else inl (base +:+ elem);
  url_Parse raw :=
    if Contains raw " " then inr (errors_New "invalid character in host name")
    else inl (mkURL raw "");
  url_ParseQuery := parse_query;
  Values_Encode := encode_values;
}.

(** Instants are seconds; the stand-in for [Format] prints the layout's name
    and the decimal number. *)
#[global] Instance seconds_format : TimeFormat Z := {
  Time_Format t layout := layout +:+ ":" +:+ pretty t;
}.

(** *** Requests *)

(** The caller's query map lives at address 0. *)
Definition heap0 : heap := mkHeap {[ 0%nat := {[ "granularity" := "60" ]} ]} [].

Definition two_chunks : timeseries Z :=
  mkTimeseries "start" "end" (Some "unix") [(0, 100); (100, 200)].

Definition one_per_second : RateLimitConfig := mkRateLimitConfig (Some 3) (Some 1000000000).

Definition candles : Request Z :=
  mkRequest "GET" "/candles" (Some 0%nat) (Some two_chunks) (Some "candles")
    (Some one_per_second).

(** The same request without a rate-limit configuration. *)
Definition candles_unlimited : Request Z :=
  mkRequest "GET" "/candles" (Some 0%nat) (Some two_chunks) (Some "candles") None.

(** The two-chunk request without a query map. *)
Definition candles_without_query : Request Z :=
  mkRequest "GET" "/candles" None (Some two_chunks) (Some "candles") (Some one_per_second).

(** A time series whose start and end parameter have the same name. *)
Definition one_name_chunks : timeseries Z :=
  mkTimeseries "t" "t" (Some "unix") [(0, 100); (100, 200)].

Definition candles_one_name : Request Z :=
  mkRequest "GET" "/candles" (Some 0%nat) (Some one_name_chunks) (Some "candles")
    (Some one_per_second).

(** A request without time series. *)
Definition products : Request Z :=
  mkRequest "GET" "/products" None None (Some "products") (Some one_per_second).

End fixtures.

(** * Properties *)

(** ** Go runtime *)

Module goerr_facts.
Import goerr.

Lemma append_String (a : ascii) (s t : string) :
  String a s +:+ t = String a (s +:+ t).
Proof. reflexivity. Qed.

Lemma prefix_app (p s : string) :
  String.prefix p s = true <-> exists rest, s = p +:+ rest.
Proof.
  revert s. induction p as [|a p IH]; intros [|b s]; simpl.
  - split; [intros _; by exists EmptyString | done].
  - split; [intros _; by exists (String b s) | done].
  - split; [done | by intros [rest ?]].
  - destruct (ascii_dec a b) as [->|Hne].
    + rewrite IH. split; intros [rest Hrest]; exists rest;
      [by rewrite Hrest | rewrite append_String in Hrest; congruence].
    + split; [done | intros [rest Hrest]; rewrite append_String in Hrest; congruence].
Qed.

(** [strings.Contains] holds exactly of the strings that have [substr] as a
    contiguous part. *)
Lemma Contains_iff (s substr : string) :
  Contains s substr = true <-> exists before after, s = before +:+ substr +:+ after.
Proof.
  induction s as [|c s IH]; cbn [Contains].
  - rewrite orb_false_r, prefix_app. split.
    + intros [rest Hrest]. by exists EmptyString, rest.
    + intros [[|? before] [after Heq]]; [by exists after | done].
  - rewrite orb_true_iff, prefix_app, IH. split.
    + intros [[rest Hrest] | (before & after & Heq)].
      * by exists EmptyString, rest.
      * exists (String c before), after. by rewrite append_String, Heq.
    + intros [[|c' before] [after Heq]].
      * left. by exists after.
      * right. exists before, after. rewrite append_String in Heq. congruence.
Qed.

Lemma errors_Is_refl (e : error) : errors_Is e e = true.
Proof. destruct e; simpl; rewrite bool_decide_eq_true_2; done. Qed.

Lemma errors_Is_Errorf_w (prefix : string) (e target : error) :
  errors_Is e target = true -> errors_Is (Errorf_w prefix e) target = true.
Proof. intros H. unfold Errorf_w. simpl. rewrite H. apply orb_true_r. Qed.

End goerr_facts.

(** ** storage.go: [New] *)

Module storage_dispatch.
Import goerr goerr_facts storage.

Section Dispatch.
Context {Client : Type} (mongo_Connect : string -> Client + error).
Context {Postgres : Type} (NewPostgres : string -> option Postgres * option error).

Lemma DNSNotSupportedError_message (dns : string) :
  Error (DNSNotSupportedError dns) = "dns is not supported: " +:+ dns.
Proof. reflexivity. Qed.

Lemma DNSNotSupportedError_names_dns (dns : string) :
  Contains (Error (DNSNotSupportedError dns)) dns = true.
Proof.
  apply Contains_iff. exists "dns is not supported: ", EmptyString.
  rewrite DNSNotSupportedError_message.
  f_equal. clear. induction dns as [|c dns IH]; [done|].
  by rewrite append_String, <- IH.
Qed.

Lemma NewMongo_connected (uri : string) (client : Client) :
  mongo_Connect uri = inl client ->
  NewMongo mongo_Connect uri = (Some (mkMongo client uri defaultMDBLifetime), None).
Proof. intros H. unfold NewMongo. by rewrite H. Qed.

(** C7.  [New] tries the tokens in the order the code lists them.  A string
    that contains [mongodb] goes to the document-store constructor and gets
    its result: the Mongo handle when the driver connects, its wrapped
    connection error (with a [Storage] that holds a nil pointer)
    otherwise.  A string without [mongodb] that contains
    [postgresql] goes to the relational constructor.  Every other string
    gets no handle and [DNSNotSupportedError dns], whose message is
    ["dns is not supported: "] followed by the string, and which wraps
    [ErrDNSNotSupported].  A handle is returned only for a string that
    contains one of the two tokens, and it is a handle of the selected
    backend. *)
Theorem New_dispatches_on_scheme_token (dns : string) :
  (Contains dns "mongodb" = true ->
     New mongo_Connect NewPostgres dns = as_Storage StorageMongo (NewMongo mongo_Connect dns)
     /\ forall client, mongo_Connect dns = inl client ->
          New mongo_Connect NewPostgres dns
          = (Some (StorageMongo (Some (mkMongo client dns defaultMDBLifetime))), None))
  /\ (Contains dns "mongodb" = true ->
     forall err, mongo_Connect dns = inr err ->
       New mongo_Connect NewPostgres dns
       = (Some (StorageMongo None), Some (Errorf_w "error connecting to mongo: " err)))
  /\ (Contains dns "mongodb" = false -> Contains dns "postgresql" = true ->
     New mongo_Connect NewPostgres dns = as_Storage StoragePostgres (NewPostgres dns))
  /\ (Contains dns "mongodb" = false -> Contains dns "postgresql" = false ->
     New mongo_Connect NewPostgres dns = (None, Some (DNSNotSupportedError dns))
     /\ Error (DNSNotSupportedError dns) = "dns is not supported: " +:+ dns
     /\ Contains (Error (DNSNotSupportedError dns)) dns = true
     /\ errors_Is (DNSNotSupportedError dns) ErrDNSNotSupported = true)
  /\ (forall handle, (New mongo_Connect NewPostgres dns).1 = Some handle ->
     (Contains dns "mongodb" = true /\ exists m, handle = StorageMongo m)
     \/ (Contains dns "mongodb" = false /\ Contains dns "postgresql" = true
         /\ exists p, handle = StoragePostgres p)).
Proof.
  unfold New. change (Scheme MongoType) with "mongodb".
  change (Scheme PostgresType) with "postgresql".
  destruct (Contains dns "mongodb") eqn:Hm;
    [|destruct (Contains dns "postgresql") eqn:Hp].
  - repeat split; try done.
    + intros client Hc. by rewrite (NewMongo_connected _ _ Hc).
    + intros _ err Hc. unfold NewMongo. by rewrite Hc.
    + intros handle Hh. left. split; [done|].
      unfold as_Storage in Hh. cbn [fst] in Hh. injection Hh as <-. by eexists.
  - repeat split; try done.
    intros handle Hh. right. do 2 (split; [done|]).
    unfold as_Storage in Hh. cbn [fst] in Hh. injection Hh as <-. by eexists.
  - repeat split; try done.
    apply DNSNotSupportedError_names_dns.
Qed.
End Dispatch.

(** The three scenarios of the specification, run on the concrete
    constructors. *)
Lemma New_dispatches_on_scheme_token_witness :
  New fixtures.connect fixtures.new_postgres "mongodb://u:p@host/db"
    = (Some (StorageMongo (Some (mkMongo "mongodb://u:p@host/db" "mongodb://u:p@host/db"
                                     defaultMDBLifetime))), None)
  /\ New fixtures.connect fixtures.new_postgres "postgresql://u:p@host/db"
    = (Some (StoragePostgres (Some "postgresql://u:p@host/db")), None)
  /\ New fixtures.connect fixtures.new_postgres "redis://host"
    = (None, Some (DNSNotSupportedError "redis://host")).
Proof.
  pose proof (New_dispatches_on_scheme_token fixtures.connect fixtures.new_postgres
                "mongodb://u:p@host/db") as (Hm & _).
  pose proof (New_dispatches_on_scheme_token fixtures.connect fixtures.new_postgres
                "postgresql://u:p@host/db") as (_ & _ & Hp & _).
  pose proof (New_dispatches_on_scheme_token fixtures.connect fixtures.new_postgres
                "redis://host") as (_ & _ & _ & Hr & _).
  split; [|split].
  - destruct (Hm eq_refl) as [_ Hc]. apply Hc. reflexivity.
  - apply Hp; reflexivity.
  - destruct (Hr eq_refl eq_refl) as [Hnew _]. exact Hnew.
Defined.

(** [mongodb] is tried first: a relational connection string that mentions
    [mongodb] anywhere is handed to the document-store constructor. *)
Example New_tries_mongodb_first :
  New fixtures.connect fixtures.new_postgres "postgresql://u:p@host/mongodb"
  = as_Storage StorageMongo (NewMongo fixtures.connect "postgresql://u:p@host/mongodb").
Proof. reflexivity. Qed.

End storage_dispatch.

(** ** mongo.go: the transaction worker *)

Module storage_worker.
Import goerr goerr_facts storage.

Section Worker.
Context {St : Type} `{!SessionContext St}.
Implicit Types (l : loop_state St) (c : sctx St) (sched : list (chan_event St)).

Lemma outcome_bind_Returned {A B} (a : A) (k : A -> outcome B) :
  Returned a ≫= k = k a.
Proof. reflexivity. Qed.

Lemma outcome_bind_Panicked {A B} (p : panic_value) (k : A -> outcome B) :
  Panicked p ≫= k = Panicked p.
Proof. reflexivity. Qed.

Lemma applied_app (h1 h2 : list call) : applied (h1 ++ h2) = applied h1 ++ applied h2.
Proof. apply omap_app. Qed.

Lemma receive_loop_app sched1 sched2 l :
  receive_loop (sched1 ++ sched2) l = receive_loop sched1 l ≫= receive_loop sched2.
Proof.
  revert l. induction sched1 as [|ev sched1 IH]; intros l; [done|].
  cbn [app receive_loop]. destruct (receive_step l ev) as [l'|p]; [|done].
  rewrite !outcome_bind_Returned. apply IH.
Qed.

Lemma sent_app sched1 sched2 : sent (sched1 ++ sched2) = sent sched1 ++ sent sched2.
Proof. apply omap_app. Qed.

Lemma sent_Recv opr sched : sent (Recv opr :: sched) = opr :: sent sched.
Proof. reflexivity. Qed.

Lemma sent_Tick sched : sent (Tick :: sched) = sent sched.
Proof. reflexivity. Qed.

(** A rotation either panics, or commits and restarts and does nothing
    else. *)
Lemma rotate_cases c :
  (exists p, rotate c = Panicked p /\ rotation_panic p)
  \/ (exists c', rotate c = Returned c'
                 /\ history c' = history c ++ [CallCommit; CallStart]
                 /\ sess c' = (StartTransaction (CommitTransaction (sess c)).1).1).
Proof.
  unfold rotate, ctx_CommitTransaction, ctx_StartTransaction. cbn [sess history].
  destruct (CommitTransaction (sess c)) as [s1 [e1|]] eqn:Hc.
  - left. eexists. split; [done|]. exists e1. by left.
  - cbn [sess history fst]. destruct (StartTransaction s1) as [s2 [e2|]] eqn:Hs.
    + left. eexists. split; [done|]. exists e2. by right.
    + right. eexists. split; [done|]. cbn [sess history fst].
      by rewrite <- app_assoc.
Qed.

(** Once an error is latched, the loop invokes no operation any more: it
    receives (drains) every remaining operation, keeps the error, and the
    only calls it still makes are rotations. *)
Lemma receive_loop_latched sched l e :
  l_err l = Some e ->
  match receive_loop sched l with
  | Returned l' =>
      l_err l' = Some e
      /\ applied (history (l_ctx l')) = applied (history (l_ctx l))
      /\ l_recv l' = (l_recv l + length (sent sched))%nat
  | Panicked p => rotation_panic p
  end.
Proof.
  revert l. induction sched as [|ev sched IH]; intros l He.
  - cbn. repeat split; [done | lia].
  - cbn [receive_loop]. destruct ev as [|opr]; cbn [receive_step].
    + rewrite outcome_bind_Returned.
      specialize (IH (mkLoop (l_ctx l) (l_err l) true (l_recv l)) He).
      destruct (receive_loop sched _) as [l'|p]; [|done].
      rewrite sent_Tick. done.
    + destruct (l_tick l).
      * destruct (rotate_cases (l_ctx l)) as [(p & -> & Hp) | (c' & -> & Hh & _)]; [done|].
        rewrite !outcome_bind_Returned.
        specialize (IH (mkLoop c' (l_err l) false (S (l_recv l))) He).
        destruct (receive_loop sched _) as [l'|p]; [|done].
        cbn [l_ctx l_recv] in IH. destruct IH as (? & Ha & Hn).
        repeat split; [done | |].
        -- rewrite Ha, Hh, applied_app. cbn. by rewrite app_nil_r.
        -- rewrite Hn, sent_Recv. cbn [length]. lia.
      * rewrite He, outcome_bind_Returned.
        specialize (IH (mkLoop (l_ctx l) (Some e) false (S (l_recv l))) eq_refl).
        destruct (receive_loop sched _) as [l'|p]; [|done].
        cbn [l_ctx l_recv] in IH. destruct IH as (? & Ha & Hn).
        repeat split; [done | done |]. rewrite Hn, sent_Recv. cbn [length]. lia.
Qed.

(** The loop panics only in the rotation branch. *)
Lemma receive_loop_panics sched l p :
  receive_loop sched l = Panicked p -> rotation_panic p.
Proof.
  revert l. induction sched as [|ev sched IH]; intros l; [done|].
  cbn [receive_loop]. destruct ev as [|opr]; cbn [receive_step].
  - rewrite outcome_bind_Returned. apply IH.
  - destruct (l_tick l).
    + destruct (rotate_cases (l_ctx l)) as [(p' & -> & Hp) | (c' & -> & _)].
      * rewrite !outcome_bind_Panicked. by intros [= <-].
      * rewrite !outcome_bind_Returned. apply IH.
    + destruct (l_err l).
      * rewrite outcome_bind_Returned. apply IH.
      * destruct (ctx_apply _ _ _). rewrite outcome_bind_Returned. apply IH.
Qed.

(** The loop counts what it receives, and the operations it has invoked are
    among those it has received. *)
Lemma receive_loop_received sched l l' :
  receive_loop sched l = Returned l' ->
  l_recv l' = (l_recv l + length (sent sched))%nat
  /\ (Forall (fun i => (i < l_recv l)%nat) (applied (history (l_ctx l))) ->
      Forall (fun i => (i < l_recv l')%nat) (applied (history (l_ctx l')))).
Proof.
  revert l. induction sched as [|ev sched IH]; intros l.
  - intros [= <-]. split; [cbn; lia | done].
  - cbn [receive_loop]. destruct ev as [|opr]; cbn [receive_step].
    + rewrite outcome_bind_Returned, sent_Tick. intros H. by apply IH in H.
    + rewrite sent_Recv. cbn [length]. destruct (l_tick l).
      * destruct (rotate_cases (l_ctx l)) as [(p' & -> & Hp) | (c' & -> & Hh & _)]; [done|].
        rewrite !outcome_bind_Returned. intros H. apply IH in H as [Hn Hall].
        cbn [l_recv l_ctx] in *. split; [lia|]. intros Hl. apply Hall.
        rewrite Hh, applied_app. cbn. rewrite app_nil_r.
        eapply Forall_impl; [exact Hl|]. cbn. lia.
      * destruct (l_err l).
        -- rewrite outcome_bind_Returned. intros H. apply IH in H as [Hn Hall].
           cbn [l_recv l_ctx] in *. split; [lia|]. intros Hl. apply Hall.
           eapply Forall_impl; [exact Hl|]. cbn. lia.
        -- unfold ctx_apply. destruct (opr _) as [s e].
           rewrite outcome_bind_Returned. intros H. apply IH in H as [Hn Hall].
           cbn [l_recv l_ctx history] in *. split; [lia|]. intros Hl. apply Hall.
           rewrite applied_app. apply Forall_app. split.
           ++ eapply Forall_impl; [exact Hl|]. cbn. lia.
           ++ cbn. repeat constructor.
Qed.

(** Every rotation and every invocation belongs to one received operation. *)
Lemma receive_loop_calls_bounded sched l :
  match receive_loop sched l with
  | Returned l' =>
      (length (driver_calls (history (l_ctx l')))
       <= length (driver_calls (history (l_ctx l))) + 2 * length (sent sched))%nat
  | Panicked _ => True
  end.
Proof.
  revert l. induction sched as [|ev sched IH]; intros l.
  - cbn. lia.
  - cbn [receive_loop]. destruct ev as [|opr]; cbn [receive_step].
    + rewrite outcome_bind_Returned, sent_Tick. apply (IH (mkLoop _ _ _ _)).
    + rewrite sent_Recv. cbn [length]. destruct (l_tick l).
      * destruct (rotate_cases (l_ctx l)) as [(p' & -> & Hp) | (c' & -> & Hh & _)]; [done|].
        rewrite !outcome_bind_Returned.
        specialize (IH (mkLoop c' (l_err l) false (S (l_recv l)))).
        destruct (receive_loop sched _) as [l'|]; [|done].
        cbn [l_ctx] in IH. rewrite Hh in IH. unfold driver_calls in *.
        rewrite List.filter_app, length_app in IH. cbn in IH. lia.
      * destruct (l_err l).
        -- rewrite outcome_bind_Returned.
           specialize (IH (mkLoop (l_ctx l) (Some e) false (S (l_recv l)))).
           destruct (receive_loop sched _) as [l'|]; [|done]. cbn [l_ctx] in IH. lia.
        -- unfold ctx_apply. destruct (opr _) as [s e]. rewrite outcome_bind_Returned.
           specialize (IH (mkLoop (mkSctx s (history (l_ctx l) ++ [CallApply (l_recv l)]))
                                  e false (S (l_recv l)))).
           destruct (receive_loop sched _) as [l'|]; [|done].
           cbn [l_ctx history] in IH. unfold driver_calls in *.
           rewrite List.filter_app, length_app in IH. cbn in IH. lia.
Qed.

Lemma receive_loop_ticks (n : nat) l :
  receive_loop (replicate n Tick) l
  = Returned (mkLoop (l_ctx l) (l_err l) (l_tick l || bool_decide (0 < n)%nat) (l_recv l)).
Proof.
  revert l. induction n as [|n IH]; intros l.
  - cbn. rewrite orb_false_r. by destruct l.
  - cbn [replicate receive_loop receive_step]. rewrite outcome_bind_Returned, IH.
    cbn [l_ctx l_err l_tick l_recv orb].
    rewrite (bool_decide_eq_true_2 (0 < S n)%nat) by lia.
    by rewrite orb_true_r.
Qed.

(** C10.  The ticker is looked at only inside an iteration of
    [for opr := range txn.ch].  While no operation arrives, ticks, however
    many, leave the session and its history as they are: no commit, no
    restart; all they can do is leave one tick buffered.  Over any schedule
    the worker makes at most two driver calls (one rotation) per operation
    received.  And a transaction that receives no operation at all is
    started once and then committed or aborted once, when the caller
    signals, whatever the number of ticks in between. *)
Theorem idle_transaction_is_never_rotated :
  (forall (n : nat) l,
      receive_loop (replicate n Tick) l
      = Returned (mkLoop (l_ctx l) (l_err l) (l_tick l || bool_decide (0 < n)%nat) (l_recv l)))
  /\ (forall sched l,
      match receive_loop sched l with
      | Returned l' =>
          (length (driver_calls (history (l_ctx l')))
           <= length (driver_calls (history (l_ctx l))) + 2 * length (sent sched))%nat
      | Panicked _ => True
      end)
  /\ (forall (n : nat) (s0 : St) (txn : Txn),
      (StartTransaction s0).2 = None ->
      exists r s,
        startSession (inl s0) (replicate n Tick) txn
        = Returned (mkTxn (txn_done txn ++ [r]) (txn_commit txn),
                    Some (mkSctx s [CallStart;
                                    if recv_commit (txn_commit txn) then CallCommit
                                    else CallAbort]))).
Proof.
  split; [apply receive_loop_ticks | split; [apply receive_loop_calls_bounded|]].
  intros n s0 txn Hstart.
  unfold startSession, UseSession, session_body, ctx_StartTransaction. cbn [sess history].
  destruct (StartTransaction s0) as [s1 e1]. cbn in Hstart. subst e1.
  unfold receiveWrites. rewrite receive_loop_ticks. cbn [l_ctx l_err l_tick l_recv app].
  rewrite !outcome_bind_Returned. cbn [l_err l_ctx].
  rewrite !outcome_bind_Returned.
  destruct (recv_commit (txn_commit txn)).
  - unfold ctx_CommitTransaction. cbn [sess history].
    destruct (CommitTransaction s1) as [s3 [e3|]];
      rewrite !outcome_bind_Returned; by eexists _, _.
  - unfold ctx_AbortTransaction. cbn [sess history].
    destruct (AbortTransaction s1) as [s3 [e3|]];
      rewrite !outcome_bind_Returned; by eexists _, _.
Qed.

(** A driver whose commit and restart do not fail lets the loop return. *)
Lemma receive_loop_returns sched l :
  (forall s, (CommitTransaction s).2 = None) ->
  (forall s, (StartTransaction s).2 = None) ->
  exists l', receive_loop sched l = Returned l'.
Proof.
  intros Hcommit Hstart. revert l.
  induction sched as [|ev sched IH]; intros l; [by eexists|].
  cbn [receive_loop]. destruct ev as [|opr]; cbn [receive_step].
  - rewrite outcome_bind_Returned. apply IH.
  - destruct (l_tick l).
    + unfold rotate, ctx_CommitTransaction, ctx_StartTransaction.
      pose proof (Hcommit (sess (l_ctx l))) as Hc.
      destruct (CommitTransaction (sess (l_ctx l))) as [s1 e1]. cbn in Hc. subst e1.
      cbn [sess history]. pose proof (Hstart s1) as Hs.
      destruct (StartTransaction s1) as [s2 e2]. cbn in Hs. subst e2.
      rewrite !outcome_bind_Returned. apply IH.
    + destruct (l_err l).
      * rewrite outcome_bind_Returned. apply IH.
      * destruct (ctx_apply _ _ _). rewrite outcome_bind_Returned. apply IH.
Qed.

(** With an error latched, operations that arrive without a tick are
    counted and nothing else happens. *)
Lemma receive_loop_latched_without_ticks (oprs : list (TxnChanFn St)) c e (n : nat) :
  receive_loop (Recv <$> oprs) (mkLoop c (Some e) false n)
  = Returned (mkLoop c (Some e) false (n + length oprs)).
Proof.
  revert n. induction oprs as [|opr oprs IH]; intros n.
  - cbn. by rewrite Nat.add_0_r.
  - cbn [fmap list_fmap receive_loop receive_step l_tick l_err l_ctx l_recv].
    rewrite outcome_bind_Returned.
    change (list_fmap _ _ Recv oprs) with (Recv <$> oprs).
    rewrite IH. cbn [length]. do 2 f_equal. lia.
Qed.

(** C5, as the code has it.  Let the worker have started its transaction,
    worked through [pre] without latching an error, and now invoke [opr] (no
    tick is buffered), which returns the error [e]: [opr] is the first
    operation to fail, and the [length (sent pre)]-th operation sent.  From
    there the worker is the loop run on what is sent afterwards ([post])
    from the latched state, followed by the delivery of [e], wrapped by
    [receiveWrites] and by [startSession], on [done]: no commit and no abort
    of the worker's follow, and the driver ends the session.  While the loop
    runs on [post] it keeps [e], invokes no operation and receives every
    one.  The loop, and with it the worker, fails to return only by the
    panic of a rotation that cannot commit or restart: it returns whenever
    the driver's commit and restart do not fail, and whenever no tick falls
    after the failure. *)
Theorem first_operation_error_is_latched
    (s0 s1 s2 : St) (pre post : list (chan_event St)) (opr : TxnChanFn St)
    (l1 : loop_state St) (e : error) (txn : Txn) :
  StartTransaction s0 = (s1, None) ->
  receive_loop pre (mkLoop (mkSctx s1 [CallStart]) None false 0) = Returned l1 ->
  l_err l1 = None ->
  l_tick l1 = false ->
  opr (sess (l_ctx l1)) = (s2, Some e) ->
  let latched :=
    mkLoop (mkSctx s2 (history (l_ctx l1) ++ [CallApply (length (sent pre))]))
           (Some e) false (S (length (sent pre))) in
  l_recv l1 = length (sent pre)
  /\ Forall (fun i => (i < length (sent pre))%nat) (applied (history (l_ctx l1)))
  /\ startSession (inl s0) (pre ++ Recv opr :: post) txn
     = (l' ← receive_loop post latched;
        Returned (mkTxn (txn_done txn
                           ++ [Some (Errorf_w "error receiving writes: "
                                       (Errorf_w "error in transaction: " e))])
                        (txn_commit txn),
                  Some (ctx_EndSession (l_ctx l'))))
  /\ match receive_loop post latched with
     | Returned l' =>
         l_err l' = Some e
         /\ applied (history (l_ctx l')) = applied (history (l_ctx l1)) ++ [length (sent pre)]
         /\ l_recv l' = (S (length (sent pre)) + length (sent post))%nat
     | Panicked p => rotation_panic p
     end
  /\ ((forall s, (CommitTransaction s).2 = None) ->
      (forall s, (StartTransaction s).2 = None) ->
      exists l', receive_loop post latched = Returned l')
  /\ (forall oprs,
      post = Recv <$> oprs ->
      receive_loop post latched
      = Returned (mkLoop (l_ctx latched) (Some e) false
                    (S (length (sent pre)) + length oprs))).
Proof.
  intros Hstart Hpre Herr Htick Hopr latched.
  destruct (receive_loop_received _ _ _ Hpre) as [Hn Hall].
  cbn [l_recv l_ctx history] in Hn, Hall. rewrite Nat.add_0_l in Hn.
  split; [done|]. split; [rewrite <- Hn; apply Hall; constructor|].
  pose proof (receive_loop_latched post latched e eq_refl) as Hlatched.
  split; [|split; [|split]].
  - unfold startSession, UseSession, session_body, ctx_StartTransaction. cbn [sess history].
    rewrite Hstart. cbn [app]. unfold receiveWrites.
    rewrite receive_loop_app, Hpre, outcome_bind_Returned.
    cbn [receive_loop receive_step]. rewrite Htick, Herr. unfold ctx_apply. rewrite Hopr.
    rewrite outcome_bind_Returned, Hn. fold latched.
    destruct (receive_loop post latched) as [l'|p]; [|done].
    destruct Hlatched as (He' & _ & _).
    by rewrite !outcome_bind_Returned, He', !outcome_bind_Returned.
  - destruct (receive_loop post latched) as [l'|p]; [|done].
    destruct Hlatched as (He' & Happ & Hrecv). cbn [l_ctx history l_recv latched] in Happ, Hrecv.
    split; [done|]. split; [|done]. rewrite Happ, applied_app. done.
  - intros Hc Hs. by apply receive_loop_returns.
  - intros oprs ->. apply receive_loop_latched_without_ticks.
Qed.

(** C6, as the code has it.  Once the transaction is started and
    [receiveWrites] has returned without an error, the worker reads the
    commit channel.  On a commit signal it calls [CommitTransaction] and
    delivers success, or the wrapped commit error.  On any other signal
    (rollback, or the channel closed) it calls [AbortTransaction] and
    delivers success when the abort succeeds; it delivers
    [ErrTransactionAborted] only when the abort call itself fails.  Whenever
    the worker of a [Txn] made by [StartTx] returns, on any input, [done]
    holds exactly one value; the one case in which it does not return is the
    panic of a failed rotation.  The session shown is the one the
    driver has ended. *)
Theorem startSession_commits_or_aborts
    (s0 s1 : St) (sched : list (chan_event St)) (txn : Txn) (c2 : sctx St) :
  StartTransaction s0 = (s1, None) ->
  receiveWrites sched (mkSctx s1 [CallStart]) = Returned (c2, None) ->
  startSession (inl s0) sched txn
  = (if recv_commit (txn_commit txn) then
       let '(s3, e3) := CommitTransaction (sess c2) in
       Returned (mkTxn (txn_done txn ++ [Errorf_w "commit transaction: " <$> e3]) (txn_commit txn),
                 Some (mkSctx (EndSession s3) (history c2 ++ [CallCommit])))
     else
       let '(s3, e3) := AbortTransaction (sess c2) in
       Returned (mkTxn (txn_done txn ++ [match e3 with
                                          | Some _ => Some ErrTransactionAborted
                                          | None => None
                                          end]) (txn_commit txn),
                 Some (mkSctx (EndSession s3) (history c2 ++ [CallAbort]))))
  /\ forall sig fresh sched' txn0,
       (StartTx sig).1 = Some txn0 ->
       match startSession fresh sched' txn0 with
       | Returned (txn', _) => exists r, txn_done txn' = [r]
       | Panicked p => rotation_panic p
       end.
Proof.
  intros Hstart Hrecv. split.
  - unfold startSession, UseSession, session_body, ctx_StartTransaction. cbn [sess history].
    rewrite Hstart. cbn [app]. rewrite Hrecv, !outcome_bind_Returned.
    destruct (recv_commit (txn_commit txn)).
    + unfold ctx_CommitTransaction.
      by destruct (CommitTransaction (sess c2)) as [s3 [e3|]].
    + unfold ctx_AbortTransaction.
      by destruct (AbortTransaction (sess c2)) as [s3 [e3|]].
  - clear. intros sig fresh sched txn [= <-].
    unfold startSession, UseSession. destruct fresh as [s0|err].
    2: { rewrite outcome_bind_Returned. by eexists. }
    unfold session_body, ctx_StartTransaction. cbn [sess history].
    destruct (StartTransaction s0) as [s1 [e1|]].
    { rewrite !outcome_bind_Returned. by eexists. }
    unfold receiveWrites.
    destruct (receive_loop sched _) as [l|p] eqn:Hloop.
    2: { rewrite !outcome_bind_Panicked. by apply receive_loop_panics in Hloop. }
    rewrite outcome_bind_Returned.
    destruct (l_err l); rewrite !outcome_bind_Returned; [by eexists|].
    destruct (recv_commit _).
    + unfold ctx_CommitTransaction.
      destruct (CommitTransaction _) as [s3 [e3|]]; rewrite !outcome_bind_Returned; by eexists.
    + unfold ctx_AbortTransaction.
      destruct (AbortTransaction _) as [s3 [e3|]]; rewrite !outcome_bind_Returned; by eexists.
Qed.

Lemma StronglySorted_snoc (xs : list nat) (n : nat) :
  StronglySorted lt xs -> Forall (fun i => (i < n)%nat) xs -> StronglySorted lt (xs ++ [n]).
Proof.
  induction 1 as [|x xs Hs IH Hx]; intros Hall; cbn.
  - repeat constructor.
  - apply Forall_cons in Hall as [Hxn Hall]. constructor; [by apply IH|].
    apply Forall_app. split; [done | by constructor].
Qed.

(** The worker never invokes an operation twice and never invokes a later
    operation before an earlier one: the indices of the operations invoked
    grow strictly. *)
Lemma receive_loop_keeps_order sched l l' :
  receive_loop sched l = Returned l' ->
  StronglySorted lt (applied (history (l_ctx l))) ->
  Forall (fun i => (i < l_recv l)%nat) (applied (history (l_ctx l))) ->
  StronglySorted lt (applied (history (l_ctx l'))).
Proof.
  revert l. induction sched as [|ev sched IH]; intros l.
  - by intros [= <-].
  - cbn [receive_loop]. destruct ev as [|opr]; cbn [receive_step].
    + rewrite outcome_bind_Returned. apply (IH (mkLoop _ _ _ _)).
    + destruct (l_tick l).
      * destruct (rotate_cases (l_ctx l)) as [(p' & -> & Hp) | (c' & -> & Hh & _)]; [done|].
        rewrite !outcome_bind_Returned. intros H Hs Hall. apply IH in H; [done| |].
        -- cbn [l_ctx]. rewrite Hh, applied_app. cbn. by rewrite app_nil_r.
        -- cbn [l_ctx l_recv]. rewrite Hh, applied_app. cbn. rewrite app_nil_r.
           eapply Forall_impl; [exact Hall|]. cbn. lia.
      * destruct (l_err l).
        -- rewrite outcome_bind_Returned. intros H Hs Hall. apply IH in H; [done|done|].
           cbn [l_ctx l_recv]. eapply Forall_impl; [exact Hall|]. cbn. lia.
        -- unfold ctx_apply. destruct (opr _) as [s e].
           rewrite outcome_bind_Returned. intros H Hs Hall. apply IH in H; [done| |].
           ++ cbn [l_ctx history]. rewrite applied_app. by apply StronglySorted_snoc.
           ++ cbn [l_ctx l_recv history]. rewrite applied_app. apply Forall_app. split.
              ** eapply Forall_impl; [exact Hall|]. cbn. lia.
              ** cbn. repeat constructor.
Qed.

(** While no tick falls and no operation fails, every operation received is
    invoked, once, in the order received. *)
Lemma receive_loop_without_ticks (oprs : list (TxnChanFn St)) l l' :
  receive_loop (Recv <$> oprs) l = Returned l' ->
  l_tick l = false -> l_err l = None -> l_err l' = None ->
  applied (history (l_ctx l')) = applied (history (l_ctx l)) ++ seq (l_recv l) (length oprs).
Proof.
  revert l. induction oprs as [|opr oprs IH]; intros l.
  - intros [= <-] _ _ _. by rewrite app_nil_r.
  - cbn [fmap list_fmap receive_loop receive_step]. intros Hrun Htick Herr Herr'.
    rewrite Htick, Herr in Hrun. unfold ctx_apply in Hrun.
    destruct (opr _) as [s [e|]]; rewrite outcome_bind_Returned in Hrun.
    + pose proof (receive_loop_latched (Recv <$> oprs)
                    (mkLoop (mkSctx s (history (l_ctx l) ++ [CallApply (l_recv l)]))
                            (Some e) false (S (l_recv l))) e eq_refl) as Hl.
      rewrite Hrun in Hl. destruct Hl as [Hl _]. congruence.
    + apply IH in Hrun; [|done..]. cbn [l_ctx l_recv history] in Hrun.
      rewrite Hrun, applied_app. cbn. by rewrite <- app_assoc.
Qed.

(** What the loop invokes from some point on are operations it receives
    from that point on. *)
Lemma receive_loop_applies_later sched l l' :
  receive_loop sched l = Returned l' ->
  exists extra,
    applied (history (l_ctx l')) = applied (history (l_ctx l)) ++ extra
    /\ Forall (fun i => (l_recv l <= i)%nat) extra.
Proof.
  revert l. induction sched as [|ev sched IH]; intros l.
  - intros [= <-]. exists []. by rewrite app_nil_r.
  - cbn [receive_loop]. destruct ev as [|opr]; cbn [receive_step].
    + rewrite outcome_bind_Returned. intros H. by apply IH in H.
    + destruct (l_tick l).
      * destruct (rotate_cases (l_ctx l)) as [(p' & -> & Hp) | (c' & -> & Hh & _)]; [done|].
        rewrite !outcome_bind_Returned. intros H.
        apply IH in H as (extra & Ha & Hall). cbn [l_ctx l_recv] in Ha, Hall.
        exists extra. split.
        -- rewrite Ha, Hh, applied_app. cbn. by rewrite app_nil_r.
        -- eapply Forall_impl; [exact Hall|]. cbn. lia.
      * destruct (l_err l).
        -- rewrite outcome_bind_Returned. intros H.
           apply IH in H as (extra & Ha & Hall). cbn [l_ctx l_recv] in Ha, Hall.
           exists extra. split; [done|]. eapply Forall_impl; [exact Hall|]. cbn. lia.
        -- unfold ctx_apply. destruct (opr _) as [s e].
           rewrite outcome_bind_Returned. intros H.
           apply IH in H as (extra & Ha & Hall). cbn [l_ctx l_recv history] in Ha, Hall.
           exists (l_recv l :: extra). split.
           ++ by rewrite Ha, applied_app, <- app_assoc.
           ++ constructor; [lia|]. eapply Forall_impl; [exact Hall|]. cbn. lia.
Qed.

(** The operation received in an iteration that takes the ticker case plays
    no part in what the iteration does. *)
Lemma rotation_ignores_operation l (opr opr' : TxnChanFn St) :
  l_tick l = true -> receive_step l (Recv opr) = receive_step l (Recv opr').
Proof. intros Ht. cbn [receive_step]. by rewrite Ht. Qed.

(** An operation received while a tick is buffered is counted as received
    and is never invoked, neither in its own iteration nor later. *)
Lemma receive_loop_rotation_drops l opr rest :
  l_tick l = true ->
  Forall (fun i => (i < l_recv l)%nat) (applied (history (l_ctx l))) ->
  match receive_loop (Recv opr :: rest) l with
  | Returned l' =>
      (l_recv l ∉ applied (history (l_ctx l')))
      /\ l_recv l' = (S (l_recv l) + length (sent rest))%nat
  | Panicked p => rotation_panic p
  end.
Proof.
  intros Htick Hall. cbn [receive_loop receive_step]. rewrite Htick.
  destruct (rotate_cases (l_ctx l)) as [(p' & -> & Hp) | (c' & -> & Hh & _)]; [done|].
  rewrite !outcome_bind_Returned.
  destruct (receive_loop rest _) as [l'|p] eqn:Hrest.
  2: { by apply receive_loop_panics in Hrest. }
  destruct (receive_loop_applies_later _ _ _ Hrest) as (extra & Ha & Hextra).
  destruct (receive_loop_received _ _ _ Hrest) as [Hn _].
  cbn [l_ctx l_recv] in Ha, Hextra, Hn. split; [|done].
  rewrite Ha, Hh, applied_app. cbn. rewrite app_nil_r.
  intros [Hin|Hin]%elem_of_app.
  - rewrite Forall_forall in Hall. apply Hall in Hin. lia.
  - rewrite Forall_forall in Hextra. apply Hextra in Hin. lia.
Qed.
End Worker.

Import fixtures.

(** C1 fails on the code.  For every driver: an operation that the loop
    receives while a tick is buffered is counted as received, the iteration
    commits and restarts, and the operation is never invoked, then or later.
    On the in-memory session: three writes are sent and the lifetime ticker
    fires between the first and the second; the iteration that receives the
    second write takes the ticker case; the caller then commits, the worker
    reports success, and the store holds only the first and the third
    write. *)
Theorem rotation_drops_the_received_operation :
  (forall (St : Type) (driver : SessionContext St) (l : loop_state St)
          (opr : TxnChanFn St) (rest : list (chan_event St)),
      l_tick l = true ->
      Forall (fun i => (i < l_recv l)%nat) (applied (history (l_ctx l))) ->
      match receive_loop (Recv opr :: rest) l with
      | Returned l' =>
          (l_recv l ∉ applied (history (l_ctx l')))
          /\ l_recv l' = (S (l_recv l) + length (sent rest))%nat
      | Panicked p => rotation_panic p
      end)
  /\ startSession (inl fresh_session)
       [Recv (op_insert 1); Tick; Recv (op_insert 2); Recv (op_insert 3)]
       (mkTxn [] SignalCommit)
     = Returned (mkTxn [None] SignalCommit,
                 Some (mkSctx (mkMem false [] [1; 3])
                         [CallStart; CallApply 0; CallCommit; CallStart; CallApply 2;
                          CallCommit])).
Proof.
  split; [|reflexivity].
  intros St driver l opr rest. apply receive_loop_rotation_drops.
Qed.

(** The second write of the run above, at the point where it is received. *)
Lemma rotation_drops_the_received_operation_witness :
  match receive_loop [Recv (op_insert 2); Recv (op_insert 3)]
          (mkLoop (mkSctx (mkMem true [1] []) [CallStart; CallApply 0]) None true 1) with
  | Returned l' =>
      (1%nat ∉ applied (history (l_ctx l')))
      /\ l_recv l' = (2 + length (sent [Recv (op_insert 3)]))%nat
  | Panicked p => rotation_panic p
  end.
Proof.
  apply (proj1 rotation_drops_the_received_operation mem_session _
           (mkLoop (mkSctx (mkMem true [1] []) [CallStart; CallApply 0]) None true 1)
           (op_insert 2) [Recv (op_insert 3)]).
  - reflexivity.
  - repeat constructor.
Defined.

(** Without a tick the same three writes are all applied, once each and in
    the order sent. *)
Example no_rotation_applies_all_operations :
  startSession (inl fresh_session)
    [Recv (op_insert 1); Recv (op_insert 2); Recv (op_insert 3)]
    (mkTxn [] SignalCommit)
  = Returned (mkTxn [None] SignalCommit,
              Some (mkSctx (mkMem false [] [1; 2; 3])
                      [CallStart; CallApply 0; CallApply 1; CallApply 2; CallCommit])).
Proof. reflexivity. Qed.

(** The second of five operations fails; the later ones, one of which would
    fail too, are received but not invoked; a rotation that succeeds falls in
    between; the first error is the one delivered. *)
Lemma first_operation_error_is_latched_witness :
  startSession (inl fresh_session)
    ([Recv (op_insert 1)] ++ Recv (op_fail "boom")
       :: [Recv (op_insert 2); Tick; Recv (op_fail "later"); Recv (op_insert 3)])
    (mkTxn [] SignalCommit)
  = Returned (mkTxn [Some (Errorf_w "error receiving writes: "
                             (Errorf_w "error in transaction: " (errors_New "boom")))]
                    SignalCommit,
              Some (mkSctx (mkMem false [] [1])
                      [CallStart; CallApply 0; CallApply 1; CallCommit; CallStart])).
Proof.
  exact (proj1 (proj2 (proj2
           (first_operation_error_is_latched
              fresh_session (mkMem true [] []) (mkMem true [1] [])
              [Recv (op_insert 1)]
              [Recv (op_insert 2); Tick; Recv (op_fail "later"); Recv (op_insert 3)]
              (op_fail "boom")
              (mkLoop (mkSctx (mkMem true [1] []) [CallStart; CallApply 0]) None false 1)
              (errors_New "boom") (mkTxn [] SignalCommit)
              eq_refl eq_refl eq_refl eq_refl eq_refl)))).
Defined.

(** The second operation is a write the server refuses, which aborts the
    transaction; a tick falls; the rotation at the next operation cannot
    commit: the worker panics, and the first error is reported nowhere. *)
Lemma first_error_lost_when_rotation_fails :
  startSession (inl fresh_session)
    [Recv (op_insert 1); Recv (op_write_error "boom"); Tick; Recv (op_insert 2)]
    (mkTxn [] SignalCommit)
  = Panicked (PanicError (Errorf_w "commit transaction: " (errors_New "no transaction started")))
  /\ ~ (exists txn' c,
          startSession (inl fresh_session)
            [Recv (op_insert 1); Recv (op_write_error "boom"); Tick; Recv (op_insert 2)]
            (mkTxn [] SignalCommit)
          = Returned (txn', c)).
Proof.
  split; [reflexivity|].
  intros (txn' & c & Hrun). vm_compute in Hrun. discriminate Hrun.
Qed.

(** A rollback after one write: the worker aborts, the abort succeeds, and
    what it delivers on [done] is the nil error, not [ErrTransactionAborted].
    The same happens when the commit channel is closed. *)
Lemma rollback_delivers_success_not_AbortedError :
  startSession (inl fresh_session) [Recv (op_insert 1)] (mkTxn [] SignalRollback)
  = Returned (mkTxn [None] SignalRollback,
              Some (mkSctx (mkMem false [] []) [CallStart; CallApply 0; CallAbort]))
  /\ startSession (inl fresh_session) [Recv (op_insert 1)] (mkTxn [] SignalClosed)
  = Returned (mkTxn [None] SignalClosed,
              Some (mkSctx (mkMem false [] []) [CallStart; CallApply 0; CallAbort]))
  /\ ~ (exists txn' c,
          startSession (inl fresh_session) [Recv (op_insert 1)] (mkTxn [] SignalRollback)
          = Returned (txn', c)
          /\ txn_done txn' = [Some ErrTransactionAborted]).
Proof.
  split; [reflexivity | split; [reflexivity|]].
  intros (txn' & c & Hrun & Hdone). vm_compute in Hrun.
  injection Hrun as <- _. discriminate Hdone.
Qed.

(** The three ways out after a clean [receiveWrites]: commit; rollback with
    a successful abort; rollback when the abort fails because the last
    operation has already aborted the transaction. *)
Lemma startSession_commits_or_aborts_witness :
  startSession (inl fresh_session) [Recv (op_insert 1)] (mkTxn [] SignalCommit)
  = Returned (mkTxn [None] SignalCommit,
              Some (mkSctx (mkMem false [] [1]) [CallStart; CallApply 0; CallCommit]))
  /\ startSession (inl fresh_session) [Recv (op_insert 1)] (mkTxn [] SignalRollback)
  = Returned (mkTxn [None] SignalRollback,
              Some (mkSctx (mkMem false [] []) [CallStart; CallApply 0; CallAbort]))
  /\ startSession (inl fresh_session) [Recv (op_insert 1); Recv op_abort] (mkTxn [] SignalRollback)
  = Returned (mkTxn [Some ErrTransactionAborted] SignalRollback,
              Some (mkSctx (mkMem false [] [])
                      [CallStart; CallApply 0; CallApply 1; CallAbort])).
Proof.
  split; [|split].
  - exact (proj1 (startSession_commits_or_aborts
                    fresh_session (mkMem true [] []) [Recv (op_insert 1)]
                    (mkTxn [] SignalCommit)
                    (mkSctx (mkMem true [1] []) [CallStart; CallApply 0])
                    eq_refl eq_refl)).
  - exact (proj1 (startSession_commits_or_aborts
                    fresh_session (mkMem true [] []) [Recv (op_insert 1)]
                    (mkTxn [] SignalRollback)
                    (mkSctx (mkMem true [1] []) [CallStart; CallApply 0])
                    eq_refl eq_refl)).
  - exact (proj1 (startSession_commits_or_aborts
                    fresh_session (mkMem true [] []) [Recv (op_insert 1); Recv op_abort]
                    (mkTxn [] SignalRollback)
                    (mkSctx (mkMem false [] []) [CallStart; CallApply 0; CallApply 1])
                    eq_refl eq_refl)).
Defined.

(** A transaction left idle for a thousand ticks and then committed. *)
Lemma idle_transaction_is_never_rotated_witness :
  exists r s,
    startSession (inl fresh_session) (replicate 1000 Tick) (mkTxn [] SignalCommit)
    = Returned (mkTxn ([] ++ [r]) SignalCommit, Some (mkSctx s [CallStart; CallCommit])).
Proof.
  exact (proj2 (proj2 (idle_transaction_is_never_rotated (St := mem_session)))
           1000%nat fresh_session (mkTxn [] SignalCommit) eq_refl).
Defined.

End storage_worker.

(** ** mongo.go: [Upsert] *)

Module storage_upsert.
Import goerr storage.

Section Upsert.
Context {Rec Doc Db Client : Type}.
Context (DecodeUpsertRecords : UpsertRequest -> list Rec + error).
Context (AssingRecordBSONDocument : Rec -> Doc + error).
Context (connstring_ParseAndValidate : string -> string + error).
Context (BulkWrite : Db -> string -> string -> list (UpdateOneModel Doc) -> Db * (BulkWriteResult + error)).

(** The models are one upserting [$set] update per record, in record order,
    appended to those already built. *)
Lemma build_models_inl (records : list Rec) (acc models : list (UpdateOneModel Doc)) :
  build_models AssingRecordBSONDocument records acc = inl models ->
  exists docs,
    Forall2 (fun record doc => AssingRecordBSONDocument record = inl doc) records docs
    /\ models = acc ++ ((fun doc => mkUpdateOneModel doc ("$set", doc) true) <$> docs).
Proof.
  revert acc. induction records as [|record records IH]; intros acc; cbn [build_models].
  - intros [= <-]. exists []. split; [constructor | by rewrite app_nil_r].
  - destruct (AssingRecordBSONDocument record) as [doc|err] eqn:Hdoc; [|done].
    intros H. apply IH in H as (docs & Hall & ->).
    exists (doc :: docs). split; [by constructor | by rewrite <- app_assoc].
Qed.

End Upsert.

Import fixtures.


End storage_upsert.

(** ** request.go: flattening *)

Module transport_flatten.
Import goerr transport.

Lemma set_all_lookup (params : gmap string string) (query : Values) (k : string) :
  set_all params query !! k
  = match params !! k with
    | Some v => Some [v]
    | None => query !! k
    end.
Proof.
  unfold set_all.
  apply (map_fold_weak_ind
           (fun (r : Values) (m : gmap string string) =>
              r !! k = match m !! k with Some v => Some [v] | None => query !! k end)).
  - by rewrite lookup_empty.
  - intros i x m r Hi IH. destruct (decide (i = k)) as [->|Hne].
    + by rewrite !lookup_insert_eq.
    + by rewrite !lookup_insert_ne.
Qed.

Lemma map_assign_Some (l : nat) (k v : string) (h : heap) :
  map_assign (Some l) k v h
  = Returned (mkHeap (<[l := <[k := v]> (map_contents h (Some l))]> (h_maps h)) (h_limiters h)).
Proof. reflexivity. Qed.

Lemma map_contents_assign (l : nat) (m : gmap string string)
    (maps : gmap nat (gmap string string)) (limiters : list Limiter) :
  map_contents (mkHeap (<[l := m]> maps) limiters) (Some l) = m.
Proof. unfold map_contents. cbn [h_maps]. by rewrite lookup_insert_eq. Qed.

Section Flatten.
Context `{!NetURL} {Time : Type} `{!TimeFormat Time} {Client : Type}.
Implicit Types (req : Request Time) (ts : timeseries Time) (client : Client) (h : heap).

(** The URL [newFetchConfig] builds from the parsed [uri]. *)
Lemma newFetchConfig_inv req rawURI client h fc h' :
  newFetchConfig req rawURI client h = Returned (inl fc, h') ->
  exists uri cfg period burst,
    url_error rawURI (Endpoint req) = None
    /\ RateLimit req = Some cfg /\ Period cfg = Some period /\ Burst cfg = Some burst
    /\ fc_URL fc = match Query req with
                   | None => uri
                   | Some _ =>
                       mkURL (url_rest uri)
                         (Values_Encode (set_all (map_contents h (Query req))
                                           (url_ParseQuery (RawQuery uri))))
                   end
    /\ fc_Method fc = Method req /\ fc_C fc = client
    /\ fc_RateLimiter fc = length (h_limiters h)
    /\ h' = mkHeap (h_maps h) (h_limiters h ++ [mkLimiter (rate_Every period) burst]).
Proof.
  unfold newFetchConfig, url_error.
  destruct (url_JoinPath rawURI (Endpoint req)) as [raw|err]; [|done].
  destruct (url_Parse raw) as [uri|err]; [|done].
  destruct (RateLimit req) as [cfg|]; [|done]. cbn [deref mbind outcome_bind].
  destruct (Period cfg) as [period|] eqn:Hp; [|done]. cbn [deref mbind outcome_bind].
  destruct (Burst cfg) as [burst|] eqn:Hb; [|done].
  cbn [deref mbind outcome_bind rate_NewLimiter].
  intros [= <- <-]. by exists uri, cfg, period, burst.
Qed.

(** An error return of [newFetchConfig] is the URL error; the heap is
    untouched. *)
Lemma newFetchConfig_inr req rawURI client h err h' :
  newFetchConfig req rawURI client h = Returned (inr err, h') ->
  url_error rawURI (Endpoint req) = Some err /\ h' = h.
Proof.
  unfold newFetchConfig, url_error.
  destruct (url_JoinPath rawURI (Endpoint req)) as [raw|e0]; [|by intros [= <- <-]].
  destruct (url_Parse raw) as [uri|e0]; [|by intros [= <- <-]].
  destruct (RateLimit req) as [cfg|]; [|done]. cbn [deref mbind outcome_bind].
  destruct (Period cfg) as [period|]; [|done]. cbn [deref mbind outcome_bind].
  destruct (Burst cfg) as [burst|]; [|done]. cbn [deref mbind outcome_bind rate_NewLimiter].
  done.
Qed.

Lemma newFetchConfig_url_error req rawURI client h err :
  url_error rawURI (Endpoint req) = Some err ->
  newFetchConfig req rawURI client h = Returned (inr err, h).
Proof.
  unfold newFetchConfig, url_error.
  destruct (url_JoinPath rawURI (Endpoint req)) as [raw|e0]; [|by intros [= <-]].
  destruct (url_Parse raw) as [uri|e0]; [done | by intros [= <-]].
Qed.

(** With a well-formed URL, [newFetchConfig] dereferences the rate-limit
    configuration: it panics when the configuration, its period or its burst
    is nil, and allocates a new limiter otherwise. *)
Lemma newFetchConfig_no_rate_limit req rawURI client h :
  url_error rawURI (Endpoint req) = None ->
  RateLimit req = None ->
  newFetchConfig req rawURI client h = Panicked NilPointerDereference.
Proof.
  unfold newFetchConfig, url_error. intros Hurl Hrl.
  destruct (url_JoinPath rawURI (Endpoint req)) as [raw|e0]; [|done].
  destruct (url_Parse raw) as [uri|e0]; [|done].
  by rewrite Hrl.
Qed.

Lemma newFetchConfig_ok req rawURI client h cfg period burst :
  url_error rawURI (Endpoint req) = None ->
  RateLimit req = Some cfg -> Period cfg = Some period -> Burst cfg = Some burst ->
  exists fc,
    newFetchConfig req rawURI client h
    = Returned (inl fc, mkHeap (h_maps h) (h_limiters h ++ [mkLimiter (rate_Every period) burst])).
Proof.
  unfold newFetchConfig, url_error. intros Hurl Hrl Hp Hb.
  destruct (url_JoinPath rawURI (Endpoint req)) as [raw|e0]; [|done].
  destruct (url_Parse raw) as [uri|e0]; [|done].
  rewrite Hrl. cbn [deref mbind outcome_bind]. rewrite Hp. cbn [deref mbind outcome_bind].
  rewrite Hb. cbn [deref mbind outcome_bind rate_NewLimiter]. by eexists.
Qed.

(** What a successful run of the chunk loop has built: one request per chunk
    still to do, appended in chunk order; the [i]-th of them carries the
    [i]-th chunk's bounds in its query and points to a limiter allocated for
    it alone. *)
Lemma flatten_chunks_inv req ts rawURI client todo requests h reqs h' :
  flatten_chunks req ts rawURI client todo requests h = Returned ((reqs, None), h') ->
  exists news,
    reqs = requests ++ news
    /\ length news = length todo
    /\ (forall i chunk, todo !! i = Some chunk ->
        exists fr layout q,
          news !! i = Some fr
          /\ Layout ts = Some layout
          /\ RawQuery (fc_URL (fetchConfig fr)) = Values_Encode q
          /\ q !! EndName ts = Some [Time_Format chunk.2 layout]
          /\ (StartName ts <> EndName ts ->
              q !! StartName ts = Some [Time_Format chunk.1 layout])
          /\ fc_RateLimiter (fetchConfig fr) = (length (h_limiters h) + i)%nat
          /\ table fr = Table req)
    /\ length (h_limiters h') = (length (h_limiters h) + length todo)%nat.
Proof.
  revert requests h. induction todo as [|chunk todo IH]; intros requests h.
  - intros [= <- <-]. exists []. rewrite app_nil_r. repeat split; [|cbn; lia].
    intros i chunk Hi. by rewrite lookup_nil in Hi.
  - cbn [flatten_chunks].
    destruct (Layout ts) as [layout|] eqn:Hlayout; [|done]. cbn [deref mbind outcome_bind].
    destruct (Query req) as [l|] eqn:Hquery; [|done].
    rewrite map_assign_Some. cbn [mbind outcome_bind].
    rewrite map_assign_Some, map_contents_assign. cbn [mbind outcome_bind h_maps h_limiters].
    set (h1maps := <[l := _]> (h_maps h)).
    set (h2 := mkHeap _ _).
    destruct (newFetchConfig req rawURI client h2) as [[[fc|err] h3]|p] eqn:Hfc; [|done|done].
    intros Hrec. apply IH in Hrec as (news & -> & Hlen & Hnth & Hlim).
    apply newFetchConfig_inv in Hfc
      as (uri & cfg & period & burst & _ & _ & _ & _ & Hurl & _ & _ & Hrl & ->).
    exists (mkFlattenedRequest fc (Table req) :: news).
    split; [by rewrite <- app_assoc|]. split; [cbn; lia|]. split.
    + intros [|i] chunk' Hi.
      * injection Hi as <-. rewrite Hquery in Hurl.
        eexists _, layout, _. split; [done|]. split; [done|].
        cbn [fetchConfig table]. rewrite Hurl. cbn [RawQuery]. split; [done|].
        rewrite <- Hquery, !set_all_lookup, Hquery. unfold h2.
        rewrite map_contents_assign.
        split; [by rewrite lookup_insert_eq|]. split.
        { intros Hne. rewrite lookup_insert_ne by done. by rewrite lookup_insert_eq. }
        split; [|done]. rewrite Hrl. unfold h2. cbn [h_limiters]. lia.
      * cbn [lookup list_lookup] in Hi. destruct (Hnth i chunk' Hi)
          as (fr & layout' & q & Hfr & Hl & Hq & He & Hs & Hr & Ht).
        exists fr, layout', q. repeat split; try done.
        rewrite Hr. unfold h2. cbn [h_limiters]. rewrite length_app. cbn. lia.
    + rewrite Hlim. unfold h2. cbn [h_limiters]. rewrite length_app. cbn. lia.
Qed.

(** The chunk loop succeeds whenever the URL can be built and the pointers
    it dereferences are there. *)
Lemma flatten_chunks_ok req ts rawURI client todo requests h l layout cfg period burst :
  Query req = Some l ->
  Layout ts = Some layout ->
  url_error rawURI (Endpoint req) = None ->
  RateLimit req = Some cfg -> Period cfg = Some period -> Burst cfg = Some burst ->
  exists reqs h',
    flatten_chunks req ts rawURI client todo requests h = Returned ((reqs, None), h').
Proof.
  intros Hquery Hlayout Hurl Hrl Hp Hb.
  revert requests h. induction todo as [|chunk todo IH]; intros requests h.
  - by eexists _, _.
  - cbn [flatten_chunks]. rewrite Hlayout, Hquery. cbn [deref mbind outcome_bind].
    rewrite map_assign_Some. cbn [mbind outcome_bind].
    rewrite map_assign_Some. cbn [mbind outcome_bind].
    match goal with
    | |- context [newFetchConfig req rawURI client ?h2] =>
        destruct (newFetchConfig_ok req rawURI client h2 cfg period burst Hurl Hrl Hp Hb)
          as [fc ->]
    end.
    cbn [mbind outcome_bind]. apply IH.
Qed.

(** An error return of the chunk loop carries the nil slice, and the error
    is the URL error of [newFetchConfig], wrapped. *)
Lemma flatten_chunks_error req ts rawURI client todo requests h reqs err h' :
  flatten_chunks req ts rawURI client todo requests h = Returned ((reqs, Some err), h') ->
  reqs = []
  /\ exists e0, url_error rawURI (Endpoint req) = Some e0
                /\ err = Errorf_w "failed to create fetch config: " e0.
Proof.
  revert requests h. induction todo as [|chunk todo IH]; intros requests h; [done|].
  cbn [flatten_chunks].
  destruct (Layout ts) as [layout|]; [|done]. cbn [deref mbind outcome_bind].
  destruct (Query req) as [l|]; [|done].
  rewrite map_assign_Some. cbn [mbind outcome_bind].
  rewrite map_assign_Some. cbn [mbind outcome_bind].
  match goal with
  | |- context [newFetchConfig req rawURI client ?h2] =>
      destruct (newFetchConfig req rawURI client h2) as [[[fc|e0] h3]|p] eqn:Hfc; [| |done]
  end.
  - apply IH.
  - intros [= <- <- <-]. apply newFetchConfig_inr in Hfc as [Hurl _]. split; [done|].
    by exists e0.
Qed.

(** The chunk loop writes every chunk's bounds into the one map the request
    refers to: when it is done, that map holds the bounds of the last chunk,
    and no other map has come into being. *)
Lemma flatten_chunks_writes_query req ts rawURI client todo requests h reqs h' chunk :
  flatten_chunks req ts rawURI client todo requests h = Returned ((reqs, None), h') ->
  last todo = Some chunk ->
  exists l layout,
    Query req = Some l /\ Layout ts = Some layout
    /\ map_contents h' (Some l) !! EndName ts = Some (Time_Format chunk.2 layout)
    /\ dom (h_maps h') = {[l]} ∪ dom (h_maps h).
Proof.
  revert requests h. induction todo as [|chunk0 todo IH]; intros requests h; [done|].
  cbn [flatten_chunks].
  destruct (Layout ts) as [layout|] eqn:Hlayout; [|done]. cbn [deref mbind outcome_bind].
  destruct (Query req) as [l|] eqn:Hquery; [|done].
  rewrite map_assign_Some. cbn [mbind outcome_bind].
  rewrite map_assign_Some, map_contents_assign. cbn [mbind outcome_bind h_maps h_limiters].
  set (h2 := mkHeap _ _).
  destruct (newFetchConfig req rawURI client h2) as [[[fc|err] h3]|p] eqn:Hfc; [|done|done].
  apply newFetchConfig_inv in Hfc
    as (uri & cfg & period & burst & _ & _ & _ & _ & _ & _ & _ & _ & ->).
  intros Hrec Hlast. destruct todo as [|chunk1 todo].
  - cbn [flatten_chunks] in Hrec. cbn [last] in Hlast.
    injection Hlast as Hchunk. injection Hrec as _ Hh. subst chunk0 h'.
    exists l, layout. repeat split; try done.
    + unfold h2, map_contents. cbn [h_maps]. rewrite lookup_insert_eq. cbn.
      by rewrite lookup_insert_eq.
    + subst h2. cbn [h_maps]. rewrite !dom_insert_L.
      by rewrite (assoc_L (∪)), (idemp_L (∪)).
  - rewrite last_cons_cons in Hlast.
    destruct (IH _ _ Hrec Hlast) as (l' & layout' & [= <-] & [= <-] & Hend & Hdom).
    exists l, layout. repeat split; try done.
    rewrite Hdom. subst h2. cbn [h_maps]. rewrite !dom_insert_L.
    by rewrite !(assoc_L (∪)), !(idemp_L (∪)).
Qed.

(** The chunk loop gets through a chunk without an error only when the
    query map, the layout and the rate-limit configuration are there and the
    URL can be built. *)
Lemma flatten_chunks_needs req ts rawURI client chunk todo requests h reqs h' :
  flatten_chunks req ts rawURI client (chunk :: todo) requests h = Returned ((reqs, None), h') ->
  exists l layout cfg period burst,
    Query req = Some l /\ Layout ts = Some layout
    /\ url_error rawURI (Endpoint req) = None
    /\ RateLimit req = Some cfg /\ Period cfg = Some period /\ Burst cfg = Some burst.
Proof.
  cbn [flatten_chunks].
  destruct (Layout ts) as [layout|] eqn:Hlayout; [|done]. cbn [deref mbind outcome_bind].
  destruct (Query req) as [l|] eqn:Hquery; [|done].
  rewrite map_assign_Some. cbn [mbind outcome_bind].
  rewrite map_assign_Some. cbn [mbind outcome_bind].
  match goal with
  | |- context [newFetchConfig req rawURI client ?h2] =>
      destruct (newFetchConfig req rawURI client h2) as [[[fc|err] h3]|p] eqn:Hfc; [| |done]
  end.
  - intros _. apply newFetchConfig_inv in Hfc
      as (uri & cfg & period & burst & Hurl & Hrl & Hp & Hb & _).
    by exists l, layout, cfg, period, burst.
  - cbn [mbind outcome_bind]. done.
Qed.

(** C2, as the code has it.  For a request with a time-series
    specification: (a) flattening returns without an error exactly when
    there is no chunk, or the query map, the layout and the rate-limit
    configuration with its period and burst are there and the URL can be
    built; (b) whenever it returns without an error, it returns as many
    flattened requests as there are chunks, and for every [i] the [i]-th
    request's URL carries the encoding of query parameters in which
    [EndName] is bound to the [i]-th chunk's end formatted with the declared
    layout, and [StartName] to the [i]-th chunk's start so formatted when
    the two names differ; when they are the same name, that one parameter
    holds the end; (c) whenever it returns an error, it returns no flattened
    request with it. *)
Theorem flattenTimeseries_one_request_per_chunk req ts rawURI client h :
  Timeseries req = Some ts ->
  ((exists reqs h', flattenTimeseries req rawURI client h = Returned ((reqs, None), h'))
   <-> (chunks ts = []
        \/ exists l layout cfg period burst,
             Query req = Some l /\ Layout ts = Some layout
             /\ url_error rawURI (Endpoint req) = None
             /\ RateLimit req = Some cfg /\ Period cfg = Some period /\ Burst cfg = Some burst))
  /\ (forall reqs h',
      flattenTimeseries req rawURI client h = Returned ((reqs, None), h') ->
      length reqs = length (chunks ts)
      /\ forall i chunk, chunks ts !! i = Some chunk ->
         exists fr layout q,
           reqs !! i = Some fr
           /\ Layout ts = Some layout
           /\ RawQuery (fc_URL (fetchConfig fr)) = Values_Encode q
           /\ q !! EndName ts = Some [Time_Format chunk.2 layout]
           /\ q !! StartName ts
              = Some [Time_Format (if decide (StartName ts = EndName ts) then chunk.2
                                   else chunk.1) layout]
           /\ table fr = Table req)
  /\ (forall reqs err h',
      flattenTimeseries req rawURI client h = Returned ((reqs, Some err), h') -> reqs = []).
Proof.
  intros Hts. unfold flattenTimeseries. rewrite Hts. split; [|split].
  - split.
    + intros (reqs & h' & Hrun). destruct (chunks ts) as [|chunk todo]; [by left|].
      right. by eapply flatten_chunks_needs.
    + intros [Hnil|(l & layout & cfg & period & burst & Hq & Hl & Hurl & Hrl & Hp & Hb)].
      * rewrite Hnil. by eexists _, _.
      * by eapply flatten_chunks_ok.
  - intros reqs h' Hrun.
    apply flatten_chunks_inv in Hrun as (news & -> & Hlen & Hnth & _).
    rewrite app_nil_l. split; [done|]. intros i chunk Hi.
    destruct (Hnth i chunk Hi) as (fr & layout & q & Hfr & Hl & Hq & He & Hs & _ & Ht).
    exists fr, layout, q. repeat split; try done.
    destruct (decide (StartName ts = EndName ts)) as [Heq|Hne].
    + by rewrite Heq.
    + by apply Hs.
  - intros reqs err h' Hrun. by apply flatten_chunks_error in Hrun as [-> _].
Qed.

(** A successful flattening of [n] chunks allocates [n] limiters, and the
    [i]-th flattened request points to the [i]-th of them: no two flattened
    requests share a limiter. *)
Lemma flattenTimeseries_limiter_per_chunk req ts rawURI client h reqs h' :
  Timeseries req = Some ts ->
  flattenTimeseries req rawURI client h = Returned ((reqs, None), h') ->
  length (h_limiters h') = (length (h_limiters h) + length (chunks ts))%nat
  /\ forall i fr, reqs !! i = Some fr ->
       fc_RateLimiter (fetchConfig fr) = (length (h_limiters h) + i)%nat.
Proof.
  intros Hts. unfold flattenTimeseries. rewrite Hts. intros Hrun.
  apply flatten_chunks_inv in Hrun as (news & -> & Hlen & Hnth & Hlim).
  rewrite app_nil_l. split; [done|]. intros i fr Hi.
  destruct (chunks ts !! i) as [chunk|] eqn:Hchunk.
  - destruct (Hnth i chunk Hchunk) as (fr' & _ & _ & Hfr & _ & _ & _ & _ & Hr & _).
    congruence.
  - apply lookup_ge_None in Hchunk. apply lookup_lt_Some in Hi. lia.
Qed.

(** C8, as the code has it.  (a) Whenever flattening returns an error, the
    slice it returns with it is nil, and the error is the URL error (join or
    parse) wrapped.  (b) A URL that cannot be built is reported as such an
    error return: for a request without time series, and for a request with
    time series at its first chunk provided the query map and the layout
    are there.  (c) The rate-limit configuration is not checked: with a good
    URL and no configuration, flattening panics with a nil-pointer
    dereference, with or without time series. *)
Theorem flattening_errors_are_returned_whole req rawURI client h :
  (forall reqs err h',
      flattenTimeseries req rawURI client h = Returned ((reqs, Some err), h') ->
      reqs = []
      /\ exists e0, url_error rawURI (Endpoint req) = Some e0 /\ errors_Is err e0 = true)
  /\ (forall e0,
      url_error rawURI (Endpoint req) = Some e0 ->
      (Timeseries req = None ->
         flattenTimeseries req rawURI client h
         = Returned (([], Some (Errorf_w "failed to flatten request: "
                                  (Errorf_w "failed to create fetch config: " e0))), h))
      /\ (forall ts chunk rest l layout,
            Timeseries req = Some ts -> chunks ts = chunk :: rest ->
            Query req = Some l -> Layout ts = Some layout ->
            exists h',
              flattenTimeseries req rawURI client h
              = Returned (([], Some (Errorf_w "failed to create fetch config: " e0)), h')))
  /\ (url_error rawURI (Endpoint req) = None ->
      RateLimit req = None ->
      (Timeseries req = None ->
         flattenTimeseries req rawURI client h = Panicked NilPointerDereference)
      /\ (forall ts chunk rest l layout,
            Timeseries req = Some ts -> chunks ts = chunk :: rest ->
            Query req = Some l -> Layout ts = Some layout ->
            flattenTimeseries req rawURI client h = Panicked NilPointerDereference)).
Proof.
  split; [|split].
  - intros reqs err h'. unfold flattenTimeseries, flatten.
    destruct (Timeseries req) as [ts|].
    + intros Hrun. apply flatten_chunks_error in Hrun as (-> & e0 & Hurl & ->).
      split; [done|]. exists e0. split; [done|].
      apply goerr_facts.errors_Is_Errorf_w, goerr_facts.errors_Is_refl.
    + destruct (newFetchConfig req rawURI client h) as [[[fc|e0] h1]|p] eqn:Hfc; [done| |done].
      cbn [mbind outcome_bind]. intros [= <- <- <-].
      apply newFetchConfig_inr in Hfc as [Hurl _]. split; [done|]. exists e0. split; [done|].
      do 2 apply goerr_facts.errors_Is_Errorf_w. apply goerr_facts.errors_Is_refl.
  - intros e0 Hurl. split.
    + intros Hts. unfold flattenTimeseries, flatten.
      by rewrite Hts, (newFetchConfig_url_error _ _ _ _ _ Hurl).
    + intros ts chunk rest l layout Hts Hchunks Hq Hl.
      unfold flattenTimeseries. rewrite Hts, Hchunks. cbn [flatten_chunks].
      rewrite Hl, Hq. cbn [deref mbind outcome_bind].
      rewrite map_assign_Some. cbn [mbind outcome_bind].
      rewrite map_assign_Some. cbn [mbind outcome_bind].
      rewrite (newFetchConfig_url_error _ _ _ _ _ Hurl). cbn [mbind outcome_bind].
      by eexists.
  - intros Hurl Hrl. split.
    + intros Hts. unfold flattenTimeseries, flatten.
      by rewrite Hts, (newFetchConfig_no_rate_limit _ _ _ _ Hurl Hrl).
    + intros ts chunk rest l layout Hts Hchunks Hq Hl.
      unfold flattenTimeseries. rewrite Hts, Hchunks. cbn [flatten_chunks].
      rewrite Hl, Hq. cbn [deref mbind outcome_bind].
      rewrite map_assign_Some. cbn [mbind outcome_bind].
      rewrite map_assign_Some. cbn [mbind outcome_bind].
      by rewrite (newFetchConfig_no_rate_limit _ _ _ _ Hurl Hrl).
Qed.
End Flatten.

Import fixtures.

(** Two chunks, two flattened requests. *)
Lemma flattenTimeseries_one_request_per_chunk_witness :
  exists reqs h',
    flattenTimeseries candles "https://api.example.com" 7%nat heap0 = Returned ((reqs, None), h')
    /\ length reqs = length (chunks two_chunks)
    /\ RawQuery <$> (fc_URL <$> (fetchConfig <$> reqs))
       = ["granularity=60&start=unix:0&end=unix:100";
          "granularity=60&start=unix:100&end=unix:200"].
Proof.
  destruct (flattenTimeseries_one_request_per_chunk candles two_chunks
              "https://api.example.com" 7%nat heap0 eq_refl)
    as [Hok Hinv].
  destruct (proj2 Hok) as (reqs & h' & Hrun).
  { right. exists 0%nat, "unix", one_per_second, 1000000000, 3. repeat split. }
  exists reqs, h'. split; [exact Hrun|]. split; [exact (proj1 (proj1 Hinv reqs h' Hrun))|].
  vm_compute in Hrun. injection Hrun as <- _. reflexivity.
Defined.

(** C2 as the specification words it fails on the code.  A request with a
    time series of two chunks and no query map yields no flattened request:
    the first assignment panics on the nil map.  The same request with a
    query map and a base URI that cannot be joined yields none either, with
    an error.  And when start and end parameter have the same name, the
    requests carry the chunk's end under that name and the start nowhere. *)
Lemma flattening_can_miss_a_chunk_or_a_bound :
  (Timeseries candles_without_query = Some two_chunks
   /\ length (chunks two_chunks) = 2%nat
   /\ flattenTimeseries candles_without_query "https://api.example.com" 7%nat heap0
      = Panicked NilMapAssignment)
  /\ (Timeseries candles = Some two_chunks
      /\ exists h',
           flattenTimeseries candles "https://api example.com" 7%nat heap0
           = Returned (([], Some (Errorf_w "failed to create fetch config: "
                                    (Errorf_w "failed to join URI and endpoint: "
                                       (errors_New "invalid character in host name")))), h'))
  /\ (Timeseries candles_one_name = Some one_name_chunks
      /\ chunks one_name_chunks = [(0, 100); (100, 200)]
      /\ exists reqs h',
           flattenTimeseries candles_one_name "https://api.example.com" 7%nat heap0
           = Returned ((reqs, None), h')
           /\ RawQuery <$> (fc_URL <$> (fetchConfig <$> reqs))
              = ["granularity=60&t=unix:100"; "granularity=60&t=unix:200"]).
Proof.
  split; [|split].
  - repeat split.
  - split; [done|]. eexists. vm_compute. reflexivity.
  - split; [done|]. split; [done|]. eexists _, _. split; vm_compute; reflexivity.
Qed.

(** C3 fails on the code.  For every request with time series, every
    successful flattening allocates one limiter per chunk, and no two of the
    flattened requests point to the same limiter.  On the two-chunk request:
    flattening starts from a heap without limiters and ends with two, and
    the two flattened requests point to limiter 0 and limiter 1. *)
Theorem each_chunk_gets_its_own_limiter :
  (forall (url : NetURL) (Time : Type) (fmt : TimeFormat Time) (Client : Type)
          (req : Request Time) (ts : timeseries Time) (rawURI : string) (client : Client)
          (h h' : heap) (reqs : list (flattenedRequest Client)),
      Timeseries req = Some ts ->
      flattenTimeseries req rawURI client h = Returned ((reqs, None), h') ->
      length (h_limiters h') = (length (h_limiters h) + length (chunks ts))%nat
      /\ forall i j fri frj,
           reqs !! i = Some fri -> reqs !! j = Some frj -> i <> j ->
           fc_RateLimiter (fetchConfig fri) <> fc_RateLimiter (fetchConfig frj))
  /\ exists fr1 fr2 h',
      flattenTimeseries candles "https://api.example.com" 7%nat heap0
      = Returned (([fr1; fr2], None), h')
      /\ h_limiters heap0 = []
      /\ h_limiters h' = [mkLimiter (OnePer 1000000000) 3; mkLimiter (OnePer 1000000000) 3]
      /\ fc_RateLimiter (fetchConfig fr1) = 0%nat
      /\ fc_RateLimiter (fetchConfig fr2) = 1%nat.
Proof.
  split.
  - intros url Time fmt Client req ts rawURI client h h' reqs Hts Hrun.
    destruct (flattenTimeseries_limiter_per_chunk _ _ _ _ _ _ _ Hts Hrun) as [Hlen Hnth].
    split; [done|]. intros i j fri frj Hi Hj Hne.
    rewrite (Hnth _ _ Hi), (Hnth _ _ Hj). lia.
  - eexists _, _, _. split; [vm_compute; reflexivity|]. by repeat split.
Qed.

(** The general part, at the two-chunk request. *)
Lemma each_chunk_gets_its_own_limiter_witness :
  exists reqs h',
    flattenTimeseries candles "https://api.example.com" 7%nat heap0 = Returned ((reqs, None), h')
    /\ length (h_limiters h') = (length (h_limiters heap0) + length (chunks two_chunks))%nat
    /\ forall i j fri frj,
         reqs !! i = Some fri -> reqs !! j = Some frj -> i <> j ->
         fc_RateLimiter (fetchConfig fri) <> fc_RateLimiter (fetchConfig frj).
Proof.
  eexists _, _. split; [vm_compute; reflexivity|].
  exact (proj1 each_chunk_gets_its_own_limiter plain_url Z seconds_format nat
           candles two_chunks "https://api.example.com" 7%nat heap0 _ _ eq_refl eq_refl).
Defined.

(** C4 fails on the code.  For every request with time series and at least
    one chunk, after a successful flattening the map the request's [Query]
    refers to holds the end bound of the last chunk under [EndName], and the
    only map address in use besides those in use before is that of
    [Query]: the chunks have no maps of their own.  On the two-chunk
    request, whose [Query] is the map at address 0 holding one parameter:
    after flattening no map has been allocated, and the caller's map holds
    the bounds of the second chunk. *)
Theorem flattening_writes_the_callers_query_map :
  (forall (url : NetURL) (Time : Type) (fmt : TimeFormat Time) (Client : Type)
          (req : Request Time) (ts : timeseries Time) (rawURI : string) (client : Client)
          (h h' : heap) (reqs : list (flattenedRequest Client)) (chunk : Time * Time),
      Timeseries req = Some ts ->
      last (chunks ts) = Some chunk ->
      flattenTimeseries req rawURI client h = Returned ((reqs, None), h') ->
      exists l layout,
        Query req = Some l /\ Layout ts = Some layout
        /\ map_contents h' (Query req) !! EndName ts = Some (Time_Format chunk.2 layout)
        /\ dom (h_maps h') = {[l]} ∪ dom (h_maps h))
  /\ exists reqs h',
      flattenTimeseries candles "https://api.example.com" 7%nat heap0
      = Returned ((reqs, None), h')
      /\ map_contents heap0 (Query candles) = {[ "granularity" := "60" ]}
      /\ map_contents h' (Query candles)
         = <["end" := "unix:200"]> (<["start" := "unix:100"]> {[ "granularity" := "60" ]})
      /\ map_contents h' (Query candles) <> map_contents heap0 (Query candles)
      /\ dom (h_maps h') = dom (h_maps heap0).
Proof.
  split.
  - intros url Time fmt Client req ts rawURI client h h' reqs chunk Hts Hlast.
    unfold flattenTimeseries. rewrite Hts. intros Hrun.
    destruct (flatten_chunks_writes_query _ _ _ _ _ _ _ _ _ _ Hrun Hlast)
      as (l & layout & Hq & Hl & Hend & Hdom).
    exists l, layout. rewrite Hq. done.
  - eexists _, _. split; [vm_compute; reflexivity|].
    split; [reflexivity|]. split; [by vm_compute|]. split.
    + intros Heq. apply (f_equal (fun m : gmap string string => m !! "start")) in Heq.
      vm_compute in Heq. discriminate Heq.
    + by vm_compute.
Qed.

(** The general part, at the two-chunk request. *)
Lemma flattening_writes_the_callers_query_map_witness :
  exists reqs h' l layout,
    flattenTimeseries candles "https://api.example.com" 7%nat heap0 = Returned ((reqs, None), h')
    /\ Query candles = Some l /\ Layout two_chunks = Some layout
    /\ map_contents h' (Query candles) !! EndName two_chunks
       = Some (Time_Format (100, 200).2 layout)
    /\ dom (h_maps h') = {[l]} ∪ dom (h_maps heap0).
Proof.
  eexists _, _.
  destruct (proj1 flattening_writes_the_callers_query_map plain_url Z seconds_format nat
              candles two_chunks "https://api.example.com" 7%nat heap0 _ _ (100, 200)
              eq_refl eq_refl eq_refl) as (l & layout & H).
  exists l, layout. split; [vm_compute; reflexivity | exact H].
Defined.

(** The rate-limit configuration is nil, the URL is fine: the call panics. *)
Lemma missing_rate_limit_config_panics :
  RateLimit candles_unlimited = None
  /\ url_error "https://api.example.com" (Endpoint candles_unlimited) = None
  /\ flattenTimeseries candles_unlimited "https://api.example.com" 7%nat heap0
     = Panicked NilPointerDereference
  /\ ~ (exists r h',
          flattenTimeseries candles_unlimited "https://api.example.com" 7%nat heap0
          = Returned (r, h')).
Proof.
  split; [reflexivity|]. split; [reflexivity|]. split; [reflexivity|].
  intros (r & h' & Hrun). vm_compute in Hrun. discriminate Hrun.
Qed.

(** A base URI with a blank in it cannot be joined: the error comes back
    wrapped, with the nil slice, with and without time series; and the
    request without a rate-limit configuration panics. *)
Lemma flattening_errors_are_returned_whole_witness :
  flattenTimeseries products "https://api example.com" 7%nat heap0
  = Returned (([], Some (Errorf_w "failed to flatten request: "
                           (Errorf_w "failed to create fetch config: "
                              (Errorf_w "failed to join URI and endpoint: "
                                 (errors_New "invalid character in host name"))))), heap0)
  /\ (exists h',
        flattenTimeseries candles "https://api example.com" 7%nat heap0
        = Returned (([], Some (Errorf_w "failed to create fetch config: "
                                 (Errorf_w "failed to join URI and endpoint: "
                                    (errors_New "invalid character in host name")))), h'))
  /\ flattenTimeseries candles_unlimited "https://api.example.com" 7%nat heap0
     = Panicked NilPointerDereference.
Proof.
  split; [|split].
  - exact (proj1 (proj1 (proj2 (flattening_errors_are_returned_whole products
                                  "https://api example.com" 7%nat heap0))
                    _ eq_refl) eq_refl).
  - exact (proj2 (proj1 (proj2 (flattening_errors_are_returned_whole candles
                                  "https://api example.com" 7%nat heap0))
                    _ eq_refl)
             two_chunks (0, 100) [(100, 200)] 0%nat "unix" eq_refl eq_refl eq_refl eq_refl).
  - exact (proj2 (proj2 (proj2 (flattening_errors_are_returned_whole candles_unlimited
                                  "https://api.example.com" 7%nat heap0))
                    eq_refl eq_refl)
             two_chunks (0, 100) [(100, 200)] 0%nat "unix" eq_refl eq_refl eq_refl eq_refl).
Defined.

End transport_flatten.

(** * Further properties of the code *)

(** ** mongo.go: more on the transaction worker *)

Module storage_worker_more.
Import goerr goerr_facts storage storage_worker.

Section Worker.
Context {St : Type} `{!SessionContext St}.
Implicit Types (l : loop_state St) (c : sctx St) (sched : list (chan_event St)).

(** The history only grows. *)
Lemma receive_loop_history_grows sched l l' :
  receive_loop sched l = Returned l' ->
  exists more, history (l_ctx l') = history (l_ctx l) ++ more.
Proof.
  revert l. induction sched as [|ev sched IH]; intros l.
  - intros [= <-]. exists []. by rewrite app_nil_r.
  - cbn [receive_loop]. destruct ev as [|opr]; cbn [receive_step].
    + rewrite outcome_bind_Returned. intros H. by apply IH in H.
    + destruct (l_tick l).
      * destruct (rotate_cases (l_ctx l)) as [(p' & -> & Hp) | (c' & -> & Hh & _)]; [done|].
        rewrite !outcome_bind_Returned. intros H. apply IH in H as [more Hm].
        cbn [l_ctx] in Hm. rewrite Hm, Hh, <- app_assoc. by eexists.
      * destruct (l_err l).
        -- rewrite outcome_bind_Returned. intros H. by apply IH in H.
        -- unfold ctx_apply. destruct (opr _) as [s e].
           rewrite outcome_bind_Returned. intros H. apply IH in H as [more Hm].
           cbn [l_ctx history] in Hm. rewrite Hm, <- app_assoc. by eexists.
Qed.

(** With an error latched and no tick, the loop only counts. *)
Lemma receive_loop_drains (oprs : list (TxnChanFn St)) c e (n : nat) :
  receive_loop (Recv <$> oprs) (mkLoop c (Some e) false n)
  = Returned (mkLoop c (Some e) false (n + length oprs)).
Proof.
  revert n. induction oprs as [|opr oprs IH]; intros n.
  - cbn. by rewrite Nat.add_0_r.
  - cbn [fmap list_fmap receive_loop receive_step l_tick l_err l_ctx l_recv].
    rewrite outcome_bind_Returned.
    change (list_fmap _ _ Recv oprs) with (Recv <$> oprs).
    rewrite IH. cbn [length]. do 2 f_equal. lia.
Qed.

(** A run without ticks follows [apply_all]: it invokes the operations in
    order, each on the session the previous one left, up to the first error,
    and receives the rest without invoking them. *)
Lemma receive_loop_apply_all (oprs : list (TxnChanFn St)) (s s2 : St) (e : option error)
    (h : list call) (n : nat) :
  apply_all oprs s = (s2, e) ->
  exists k,
    (k <= length oprs)%nat
    /\ (e = None -> k = length oprs)
    /\ receive_loop (Recv <$> oprs) (mkLoop (mkSctx s h) None false n)
       = Returned (mkLoop (mkSctx s2 (h ++ (CallApply <$> seq n k))) e false (n + length oprs)).
Proof.
  revert s h n. induction oprs as [|opr oprs IH]; intros s h n.
  - intros [= <- <-]. exists 0%nat. cbn. rewrite app_nil_r, Nat.add_0_r. done.
  - cbn [apply_all fmap list_fmap receive_loop receive_step l_tick l_err l_ctx l_recv].
    change (list_fmap _ _ Recv oprs) with (Recv <$> oprs).
    unfold ctx_apply. cbn [sess history].
    destruct (opr s) as [s' [e'|]] eqn:Hopr.
    + intros [= <- <-]. rewrite outcome_bind_Returned.
      exists 1%nat. split; [cbn; lia|]. split; [done|].
      rewrite receive_loop_drains. cbn [length seq fmap list_fmap]. do 2 f_equal. lia.
    + intros Hrest. rewrite outcome_bind_Returned.
      destruct (IH _ (h ++ [CallApply n]) (S n) Hrest) as (k & Hk & Hall & ->).
      exists (S k). split; [cbn; lia|]. split; [intros He; cbn; by rewrite Hall|].
      cbn [length seq fmap list_fmap]. rewrite <- app_assoc. cbn [app].
      do 2 f_equal. lia.
Qed.

(** X1.  Whatever the schedule of ticks and operations, the session the
    worker leaves has had no operation invoked twice and no operation invoked
    before one that was sent earlier: the positions (in sending order) of the
    operations invoked grow strictly, and all of them are positions of
    operations that were sent. *)
Theorem worker_keeps_sending_order (fresh : St + error) sched (txn : Txn) :
  match startSession fresh sched txn with
  | Returned (_, Some c) =>
      StronglySorted lt (applied (history c))
      /\ Forall (fun i => (i < length (sent sched))%nat) (applied (history c))
  | _ => True
  end.
Proof.
  unfold startSession, UseSession. destruct fresh as [s0|err]; [|done].
  unfold session_body, ctx_StartTransaction. cbn [sess history].
  destruct (StartTransaction s0) as [s1 [e1|]].
  { rewrite !outcome_bind_Returned. cbn. split; [constructor | constructor]. }
  unfold receiveWrites.
  destruct (receive_loop sched _) as [l|p] eqn:Hloop; [|done].
  pose proof (receive_loop_keeps_order _ _ _ Hloop) as Hsorted.
  destruct (receive_loop_received _ _ _ Hloop) as [Hn Hbound].
  cbn [l_ctx l_recv history applied omap] in Hsorted, Hn, Hbound.
  specialize (Hsorted (SSorted_nil _) (Forall_nil_2 _)).
  specialize (Hbound (Forall_nil_2 _)). rewrite Hn in Hbound. cbn in Hbound.
  rewrite outcome_bind_Returned.
  destruct (l_err l); rewrite !outcome_bind_Returned; [done|].
  destruct (recv_commit (txn_commit txn)).
  - unfold ctx_CommitTransaction.
    destruct (CommitTransaction _) as [s3 [e3|]]; rewrite !outcome_bind_Returned;
      unfold ctx_EndSession; cbn [history]; rewrite applied_app; cbn; by rewrite app_nil_r.
  - unfold ctx_AbortTransaction.
    destruct (AbortTransaction _) as [s3 [e3|]]; rewrite !outcome_bind_Returned;
      unfold ctx_EndSession; cbn [history]; rewrite applied_app; cbn; by rewrite app_nil_r.
Qed.

(** X2.  When no tick falls and every operation succeeds on the session its
    predecessor left, the worker has invoked every operation sent, once and
    in sending order, and nothing else between the start and the end of the
    transaction; the session it commits (or aborts) is the one [apply_all]
    computes, and what it delivers is the outcome of that one commit (or
    abort). *)
Theorem worker_applies_all_without_ticks (s0 s1 s2 : St) (oprs : list (TxnChanFn St))
    (txn : Txn) :
  StartTransaction s0 = (s1, None) ->
  apply_all oprs s1 = (s2, None) ->
  startSession (inl s0) (Recv <$> oprs) txn
  = (if recv_commit (txn_commit txn) then
       let '(s3, e3) := CommitTransaction s2 in
       Returned (mkTxn (txn_done txn ++ [Errorf_w "commit transaction: " <$> e3]) (txn_commit txn),
                 Some (mkSctx (EndSession s3) (CallStart :: (CallApply <$> seq 0 (length oprs))
                                    ++ [CallCommit])))
     else
       let '(s3, e3) := AbortTransaction s2 in
       Returned (mkTxn (txn_done txn ++ [match e3 with
                                          | Some _ => Some ErrTransactionAborted
                                          | None => None
                                          end]) (txn_commit txn),
                 Some (mkSctx (EndSession s3) (CallStart :: (CallApply <$> seq 0 (length oprs))
                                    ++ [CallAbort])))).
Proof.
  intros Hstart Hall.
  destruct (receive_loop_apply_all oprs s1 s2 None [CallStart] 0 Hall) as (k & _ & Hk & Hloop).
  rewrite (Hk eq_refl) in Hloop.
  unfold startSession, UseSession, session_body, ctx_StartTransaction. cbn [sess history].
  rewrite Hstart. cbn [app]. unfold receiveWrites. rewrite Hloop.
  rewrite !outcome_bind_Returned. cbn [l_err l_ctx]. rewrite !outcome_bind_Returned.
  destruct (recv_commit (txn_commit txn)).
  - unfold ctx_CommitTransaction. cbn [sess history].
    by destruct (CommitTransaction s2) as [s3 [e3|]].
  - unfold ctx_AbortTransaction. cbn [sess history].
    by destruct (AbortTransaction s2) as [s3 [e3|]].
Qed.

(** X3.  When no tick falls and some operation fails, the worker stops
    invoking at that operation and makes no further call on the session:
    it neither commits nor aborts, whatever the caller puts on the commit
    channel.  The session goes back to the driver as the failing operation
    left it, and it is the driver's [EndSession] that ends it; [done]
    carries that operation's error wrapped twice. *)
Theorem worker_makes_no_call_after_error (s0 s1 s2 : St)
    (oprs : list (TxnChanFn St)) (e : error) (txn : Txn) :
  StartTransaction s0 = (s1, None) ->
  apply_all oprs s1 = (s2, Some e) ->
  exists k,
    (0 < k <= length oprs)%nat
    /\ startSession (inl s0) (Recv <$> oprs) txn
       = Returned (mkTxn (txn_done txn
                            ++ [Some (Errorf_w "error receiving writes: "
                                        (Errorf_w "error in transaction: " e))])
                         (txn_commit txn),
                   Some (mkSctx (EndSession s2) (CallStart :: (CallApply <$> seq 0 k)))).
Proof.
  intros Hstart Hall.
  destruct (receive_loop_apply_all oprs s1 s2 (Some e) [CallStart] 0 Hall)
    as (k & Hk & _ & Hloop).
  exists k. split.
  - split; [|done]. destruct k; [|lia].
    (* nothing invoked would mean nothing failed *)
    destruct oprs as [|opr oprs]; [done|].
    cbn [apply_all fmap list_fmap receive_loop receive_step l_tick l_err l_ctx l_recv] in Hloop.
    unfold ctx_apply in Hloop. cbn [sess history] in Hloop.
    destruct (opr s1) as [s' [e'|]]; rewrite outcome_bind_Returned in Hloop.
    + change (list_fmap _ _ Recv oprs) with (Recv <$> oprs) in Hloop.
      rewrite receive_loop_drains in Hloop. injection Hloop as _ Hh _.
      apply (f_equal length) in Hh. cbn in Hh. lia.
    + change (list_fmap _ _ Recv oprs) with (Recv <$> oprs) in Hloop.
      apply receive_loop_history_grows in Hloop as [more Hm].
      cbn [l_ctx history] in Hm. apply (f_equal length) in Hm.
      rewrite !length_app in Hm. cbn in Hm. lia.
  - unfold startSession, UseSession, session_body, ctx_StartTransaction. cbn [sess history].
    rewrite Hstart. cbn [app]. unfold receiveWrites. rewrite Hloop.
    rewrite !outcome_bind_Returned. cbn [l_err l_ctx]. by rewrite !outcome_bind_Returned.
Qed.

(** X4.  The ticker's channel holds one tick: any number of ticks that fall
    between two operations has the effect of a single tick, so a long idle
    period is followed by one rotation, not by one per lifetime elapsed. *)
Theorem ticks_between_operations_count_once (n : nat) sched l :
  receive_loop (replicate (S n) Tick ++ sched) l = receive_loop (Tick :: sched) l.
Proof.
  rewrite receive_loop_app, receive_loop_ticks, outcome_bind_Returned.
  cbn [receive_loop receive_step]. rewrite outcome_bind_Returned.
  rewrite bool_decide_eq_true_2 by lia. by rewrite orb_true_r.
Qed.

(** X19.  A rotation that cannot be carried out crashes the worker: when an
    operation is received while a tick is buffered and the commit fails, or
    the commit succeeds and the restart fails, the worker panics with the
    driver's error wrapped, whatever is sent afterwards, and nothing is
    delivered on [done]. *)
Theorem failed_rotation_panics (s0 s1 : St) (pre post : list (chan_event St))
    (opr : TxnChanFn St) (l1 : loop_state St) (txn : Txn) :
  StartTransaction s0 = (s1, None) ->
  receive_loop pre (mkLoop (mkSctx s1 [CallStart]) None false 0) = Returned l1 ->
  l_tick l1 = true ->
  (forall s err,
      CommitTransaction (sess (l_ctx l1)) = (s, Some err) ->
      startSession (inl s0) (pre ++ Recv opr :: post) txn
      = Panicked (PanicError (Errorf_w "commit transaction: " err)))
  /\ (forall s s' err,
      CommitTransaction (sess (l_ctx l1)) = (s, None) ->
      StartTransaction s = (s', Some err) ->
      startSession (inl s0) (pre ++ Recv opr :: post) txn
      = Panicked (PanicError (Errorf_w "error starting transaction: " err))).
Proof.
  intros Hstart Hpre Htick.
  assert (Hrun : forall p, rotate (l_ctx l1) = Panicked p ->
            startSession (inl s0) (pre ++ Recv opr :: post) txn = Panicked p).
  { intros p Hrot.
    unfold startSession, UseSession, session_body, ctx_StartTransaction. cbn [sess history].
    rewrite Hstart. cbn [app]. unfold receiveWrites.
    rewrite receive_loop_app, Hpre, outcome_bind_Returned.
    cbn [receive_loop receive_step]. rewrite Htick, Hrot. done. }
  split.
  - intros s err Hc. apply Hrun. unfold rotate, ctx_CommitTransaction. by rewrite Hc.
  - intros s s' err Hc Hs. apply Hrun.
    unfold rotate, ctx_CommitTransaction, ctx_StartTransaction. rewrite Hc. cbn [sess history].
    by rewrite Hs.
Qed.
End Worker.

Import fixtures.

(** An operation aborts the transaction, a tick falls, and the next
    operation meets a rotation whose commit finds no transaction. *)
Lemma failed_rotation_panics_witness :
  startSession (inl fresh_session) ([Recv op_abort; Tick] ++ Recv (op_insert 1) :: [])
    (mkTxn [] SignalCommit)
  = Panicked (PanicError (Errorf_w "commit transaction: " (errors_New "no transaction started"))).
Proof.
  exact (proj1 (failed_rotation_panics fresh_session (mkMem true [] [])
                  [Recv op_abort; Tick] [] (op_insert 1)
                  (mkLoop (mkSctx (mkMem false [] []) [CallStart; CallApply 0]) None true 1)
                  (mkTxn [] SignalCommit) eq_refl eq_refl eq_refl)
           (mkMem false [] []) (errors_New "no transaction started") eq_refl).
Defined.

(** Two writes, committed. *)
Lemma worker_applies_all_without_ticks_witness :
  startSession (inl fresh_session) (Recv <$> [op_insert 1; op_insert 2]) (mkTxn [] SignalCommit)
  = Returned (mkTxn [None] SignalCommit,
              Some (mkSctx (mkMem false [] [1; 2])
                      [CallStart; CallApply 0; CallApply 1; CallCommit])).
Proof.
  exact (worker_applies_all_without_ticks fresh_session (mkMem true [] []) (mkMem true [1; 2] [])
           [op_insert 1; op_insert 2] (mkTxn [] SignalCommit) eq_refl eq_refl).
Defined.

(** The second of three operations fails; the caller's commit changes
    nothing, and the driver ends the session, which discards the first
    write. *)
Lemma worker_makes_no_call_after_error_witness :
  exists k,
    (0 < k <= 3)%nat
    /\ startSession (inl fresh_session)
         (Recv <$> [op_insert 1; op_fail "boom"; op_insert 2]) (mkTxn [] SignalCommit)
       = Returned (mkTxn ([] ++ [Some (Errorf_w "error receiving writes: "
                                       (Errorf_w "error in transaction: " (errors_New "boom")))])
                         SignalCommit,
                   Some (mkSctx (mkMem false [] []) (CallStart :: (CallApply <$> seq 0 k)))).
Proof.
  exact (worker_makes_no_call_after_error fresh_session (mkMem true [] [])
           (mkMem true [1] []) [op_insert 1; op_fail "boom"; op_insert 2]
           (errors_New "boom") (mkTxn [] SignalCommit) eq_refl eq_refl).
Defined.


End storage_worker_more.

(** ** mongo.go: more on [Upsert] *)

Module storage_upsert_more.
Import goerr storage storage_upsert.

Section Upsert.
Context {Rec Doc Db Client : Type}.
Context (DecodeUpsertRecords : UpsertRequest -> list Rec + error).
Context (AssingRecordBSONDocument : Rec -> Doc + error).
Context (connstring_ParseAndValidate : string -> string + error).
Context (BulkWrite : Db -> string -> string -> list (UpdateOneModel Doc) -> Db * (BulkWriteResult + error)).

(** The conversion loop stops at the first record that does not convert. *)
Lemma build_models_first_failure (good rest : list Rec) (bad : Rec) (err : error)
    (acc : list (UpdateOneModel Doc)) :
  Forall (fun record => exists doc, AssingRecordBSONDocument record = inl doc) good ->
  AssingRecordBSONDocument bad = inr err ->
  build_models AssingRecordBSONDocument (good ++ bad :: rest) acc
  = inr (Errorf_w "failed to assign record to bson document: " err).
Proof.
  intros Hgood Hbad. revert acc.
  induction Hgood as [|record good [doc Hdoc] _ IH]; intros acc; cbn [app build_models].
  - by rewrite Hbad.
  - rewrite Hdoc. apply IH.
Qed.

(** X6.  [Upsert] is all or nothing towards the server: when the request
    does not decode, when any one record of the batch does not convert to a
    document (whatever the records before and after it), or when the
    connection string does not parse, the call returns no response and the
    wrapped error, and nothing has been sent to the server. *)
Theorem Upsert_fails_before_writing (m : Mongo Client) (req : UpsertRequest)
    (srv : server (Doc := Doc) (Db := Db)) :
  (forall err,
      DecodeUpsertRecords req = inr err ->
      Upsert DecodeUpsertRecords AssingRecordBSONDocument connstring_ParseAndValidate BulkWrite
        m req srv
      = ((None, Some (Errorf_w "failed to decode records: " err)), srv))
  /\ (forall good bad rest err,
      DecodeUpsertRecords req = inl (good ++ bad :: rest) ->
      Forall (fun record => exists doc, AssingRecordBSONDocument record = inl doc) good ->
      AssingRecordBSONDocument bad = inr err ->
      Upsert DecodeUpsertRecords AssingRecordBSONDocument connstring_ParseAndValidate BulkWrite
        m req srv
      = ((None, Some (Errorf_w "failed to assign record to bson document: " err)), srv))
  /\ (forall records models err,
      DecodeUpsertRecords req = inl records ->
      records <> [] ->
      build_models AssingRecordBSONDocument records [] = inl models ->
      connstring_ParseAndValidate (mongo_dns m) = inr err ->
      Upsert DecodeUpsertRecords AssingRecordBSONDocument connstring_ParseAndValidate BulkWrite
        m req srv
      = ((None, Some (Errorf_w "failed to parse connection string: " err)), srv)).
Proof.
  split; [|split].
  - intros err Hdec. unfold Upsert. by rewrite Hdec.
  - intros good bad rest err Hdec Hgood Hbad. unfold Upsert. rewrite Hdec.
    destruct (decide _) as [Hlen|_].
    { rewrite length_app in Hlen. cbn in Hlen. lia. }
    by rewrite (build_models_first_failure _ _ _ _ _ Hgood Hbad).
  - intros records models err Hdec Hne Hmodels Hcs. unfold Upsert. rewrite Hdec.
    destruct (decide _) as [Hlen|_]; [by destruct records|].
    by rewrite Hmodels, Hcs.
Qed.

(** X7.  Every call of [Upsert] returns either a response or an error, never
    both and never neither, and sends at most one request to the server.
    When it sends one, it is a single bulk write to the request's table that
    carries, in record order, one upserting update per decoded record, whose
    filter and whose [$set] are the record's document. *)
Theorem Upsert_one_result_at_most_one_write (m : Mongo Client) (req : UpsertRequest)
    (srv : server (Doc := Doc) (Db := Db)) :
  let r := Upsert DecodeUpsertRecords AssingRecordBSONDocument connstring_ParseAndValidate
             BulkWrite m req srv in
  ((exists rsp, r.1 = (Some rsp, None)) \/ (exists err, r.1 = (None, Some err)))
  /\ (r.2 = srv
      \/ exists db database records docs,
           DecodeUpsertRecords req = inl records
           /\ Forall2 (fun record doc => AssingRecordBSONDocument record = inl doc) records docs
           /\ r.2 = mkServer db
                      (srv_log srv
                       ++ [DbBulkWrite database (req_Table req)
                             ((fun doc => mkUpdateOneModel doc ("$set", doc) true) <$> docs)])).
Proof.
  cbn zeta. unfold Upsert.
  destruct (DecodeUpsertRecords req) as [records|err] eqn:Hdec; [|split; [right|left]; by eauto].
  destruct (decide _) as [_|_]; [split; [left|left]; by eauto|].
  destruct (build_models _ records []) as [models|err] eqn:Hmodels;
    [|split; [right|left]; by eauto].
  destruct (connstring_ParseAndValidate _) as [database|err];
    [|split; [right|left]; by eauto].
  apply build_models_inl in Hmodels as (docs & Hall & ->). rewrite app_nil_l.
  destruct (BulkWrite _ _ _ _) as [db [bwr|err]]; (split; [by eauto|]); right;
    by exists db, database, records, docs.
Qed.
End Upsert.

Import fixtures.

(** A batch whose second record does not convert. *)
Lemma Upsert_fails_before_writing_witness :
  Upsert decode assign parse_connstring bulk_write
    (mkMongo tt "mongodb://u:p@host/gidari" defaultMDBLifetime)
    (mkUpsertRequest "candles" [30; -1; 40]) (mkServer [10; 20] [])
  = ((None, Some (Errorf_w "failed to assign record to bson document: "
                    (errors_New "negative record"))), mkServer [10; 20] []).
Proof.
  refine (proj1 (proj2 (Upsert_fails_before_writing decode assign parse_connstring bulk_write
                          (mkMongo tt "mongodb://u:p@host/gidari" defaultMDBLifetime)
                          (mkUpsertRequest "candles" [30; -1; 40]) (mkServer [10; 20] [])))
            [30] (-1) [40] (errors_New "negative record") eq_refl _ eq_refl).
  repeat constructor. by exists 30.
Defined.

End storage_upsert_more.

(** ** mongo.go: [Truncate], [ListTables], [ListPrimaryKeys] *)

Module storage_collections.
Import goerr goerr_facts storage.

Lemma append_assoc (a b c : string) : (a +:+ b) +:+ c = a +:+ (b +:+ c).
Proof. induction a as [|x a IH]; [done|]. by rewrite !append_String, IH. Qed.

Lemma table_set_lookup (collections : list string) (c : string) :
  table_set collections !! c = if decide (c ∈ collections) then Some true else None.
Proof.
  unfold table_set.
  cut (forall acc : gmap string bool,
          foldl (fun set collection => <[collection := true]> set) acc collections !! c
          = if decide (c ∈ collections) then Some true else acc !! c).
  { intros H. rewrite H. by rewrite lookup_empty. }
  induction collections as [|x collections IH]; intros acc; cbn [foldl].
  - rewrite decide_False; [done | apply not_elem_of_nil].
  - rewrite IH. destruct (decide (c ∈ collections)) as [Hin|Hnin].
    + rewrite decide_True; [done | by right].
    + destruct (decide (c = x)) as [->|Hne].
      * rewrite lookup_insert_eq. rewrite decide_True; [done | by left].
      * rewrite lookup_insert_ne by done. rewrite decide_False; [done|].
        by intros [?|?]%elem_of_cons.
Qed.

Lemma add_id_fresh (collection : string) (pkset : gmap string PrimaryKeys) :
  pkset !! collection = None ->
  add_id collection pkset = <[collection := mkPrimaryKeys ["_id"]]> pkset.
Proof.
  intros Hnone. unfold add_id. rewrite Hnone. apply map_eq. intros k.
  destruct (decide (collection = k)) as [->|Hne].
  - by rewrite lookup_alter_eq, !lookup_insert_eq.
  - by rewrite lookup_alter_ne, !lookup_insert_ne.
Qed.

Lemma primary_keys_lookup (tables : gmap string bool) (c : string) :
  map_fold (fun collection (_ : bool) pkset => add_id collection pkset) ∅ tables !! c
  = (fun _ => mkPrimaryKeys ["_id"]) <$> tables !! c.
Proof.
  revert c.
  apply (map_fold_weak_ind
           (fun (r : gmap string PrimaryKeys) (m : gmap string bool) =>
              forall c, r !! c = (fun _ => mkPrimaryKeys ["_id"]) <$> m !! c)).
  - intros c. by rewrite !lookup_empty.
  - intros i x m r Hi IH c.
    rewrite add_id_fresh by (rewrite IH, Hi; done).
    destruct (decide (i = c)) as [->|Hne].
    + by rewrite !lookup_insert_eq.
    + by rewrite !lookup_insert_ne.
Qed.

Section Collections.
Context {Db Client : Type}.
Context (connstring_ParseAndValidate : string -> string + error).
Context (DeleteMany : Db -> string -> string -> Db * option error).
Context (ListCollectionNames : Db -> string -> Db * (list string + error)).

(** The loop of [Truncate] when every delete is answered without an error:
    all deletes have been sent, in order. *)
Lemma truncate_collections_all (database : string) (tables : list string)
    (st : store (Db := Db)) :
  (forall i c, tables !! i = Some c ->
     (DeleteMany (delete_all DeleteMany database (take i tables) (st_db st)) database c).2
     = None) ->
  truncate_collections DeleteMany database tables st
  = (None, mkStore (delete_all DeleteMany database tables (st_db st))
             (st_log st ++ (DbDeleteMany database <$> tables))).
Proof.
  revert st. induction tables as [|collection tables IH]; intros st Hok;
    cbn [truncate_collections].
  - cbn. rewrite app_nil_r. by destruct st.
  - pose proof (Hok 0%nat collection eq_refl) as H0. cbn in H0.
    destruct (DeleteMany (st_db st) database collection) as [db err] eqn:Hdel.
    cbn in H0. subst err. rewrite IH.
    + cbn [st_db st_log fmap list_fmap delete_all foldl]. rewrite Hdel. cbn [fst].
      by rewrite <- app_assoc.
    + intros i c Hi. specialize (Hok (S i) c Hi). cbn [take delete_all foldl] in Hok.
      rewrite Hdel in Hok. exact Hok.
Qed.

(** The loop of [Truncate] when the [i]-th delete is the first that is
    answered with an error: the deletes up to that one have been sent, in
    order, and the error is that answer, wrapped. *)
Lemma truncate_collections_first_failure (database : string) (tables : list string)
    (st : store (Db := Db)) (i : nat) (t : string) (cause : error) :
  tables !! i = Some t ->
  (forall j c, (j < i)%nat -> tables !! j = Some c ->
     (DeleteMany (delete_all DeleteMany database (take j tables) (st_db st)) database c).2
     = None) ->
  (DeleteMany (delete_all DeleteMany database (take i tables) (st_db st)) database t).2
  = Some cause ->
  truncate_collections DeleteMany database tables st
  = (Some (Errorf_w ("error truncating collection " +:+ t +:+ ": ") cause),
     mkStore (delete_all DeleteMany database (take (S i) tables) (st_db st))
       (st_log st ++ (DbDeleteMany database <$> take (S i) tables))).
Proof.
  revert st i. induction tables as [|collection tables IH]; intros st i Hi Hbefore Hfail;
    [done|].
  cbn [truncate_collections]. destruct i as [|i].
  - injection Hi as ->. cbn [take delete_all foldl] in Hfail.
    destruct (DeleteMany (st_db st) database t) as [db err] eqn:Hdel.
    cbn in Hfail. subst err. cbn [take delete_all foldl fmap list_fmap].
    by rewrite Hdel.
  - pose proof (Hbefore 0%nat collection ltac:(lia) eq_refl) as H0. cbn in H0.
    destruct (DeleteMany (st_db st) database collection) as [db err] eqn:Hdel.
    cbn in H0. subst err.
    rewrite (IH (mkStore db (st_log st ++ [DbDeleteMany database collection])) i Hi).
    + cbn [st_db st_log take fmap list_fmap delete_all foldl]. rewrite Hdel. cbn [fst].
      by rewrite <- app_assoc.
    + intros j c Hj Hc. specialize (Hbefore (S j) c ltac:(lia) Hc).
      cbn [take delete_all foldl] in Hbefore. rewrite Hdel in Hbefore. exact Hbefore.
    + cbn [take delete_all foldl] in Hfail. rewrite Hdel in Hfail. exact Hfail.
Qed.

(** One of the two happens: every delete is answered without an error, or
    there is a first one that is not. *)
Lemma truncate_collections_cases (database : string) (tables : list string) (db : Db) :
  (forall i c, tables !! i = Some c ->
     (DeleteMany (delete_all DeleteMany database (take i tables) db) database c).2 = None)
  \/ exists i t cause,
       tables !! i = Some t
       /\ (forall j c, (j < i)%nat -> tables !! j = Some c ->
             (DeleteMany (delete_all DeleteMany database (take j tables) db) database c).2
             = None)
       /\ (DeleteMany (delete_all DeleteMany database (take i tables) db) database t).2
          = Some cause.
Proof.
  revert db. induction tables as [|collection tables IH]; intros db.
  - left. intros i c Hi. by rewrite lookup_nil in Hi.
  - destruct (DeleteMany db database collection) as [db' [cause|]] eqn:Hdel.
    + right. exists 0%nat, collection, cause. split; [done|]. split; [lia|].
      cbn [take delete_all foldl]. by rewrite Hdel.
    + destruct (IH db') as [Hall|(i & t & cause & Hi & Hbefore & Hfail)].
      * left. intros [|i] c Hi.
        -- injection Hi as <-. cbn [take delete_all foldl]. by rewrite Hdel.
        -- cbn [take delete_all foldl]. rewrite Hdel. by apply Hall.
      * right. exists (S i), t, cause. split; [done|]. split.
        -- intros [|j] c Hj Hc.
           ++ injection Hc as <-. cbn [take delete_all foldl]. by rewrite Hdel.
           ++ cbn [take delete_all foldl]. rewrite Hdel. apply Hbefore; [lia|done].
        -- cbn [take delete_all foldl]. by rewrite Hdel.
Qed.

(** X8.  [Truncate] with no table is a success that touches nothing, not
    even the connection string.  With tables and a connection string that
    does not parse it fails before any delete.  Otherwise it sends one
    delete per table, in request order, each to the database the deletes
    before it have left.  When every delete is answered without an error,
    all of them have been sent and the answer is the empty response.  At the
    first delete that is answered with an error it stops: the deletes sent
    are those up to and including that table's, the tables after it get no
    request, there is no response, and the error is the one [DeleteMany]
    answered, wrapped in a message that names the failing table.  One of
    the two always is the case. *)
Theorem Truncate_stops_at_first_failure (m : Mongo Client) (req : TruncateRequest)
    (st : store (Db := Db)) :
  let r := Truncate connstring_ParseAndValidate DeleteMany m req st in
  let answer (database : string) (i : nat) (c : string) : option error :=
    (DeleteMany (delete_all DeleteMany database (take i (req_Tables req)) (st_db st))
       database c).2 in
  (req_Tables req = [] -> r = ((Some TruncateResponse_zero, None), st))
  /\ (forall err,
        req_Tables req <> [] ->
        connstring_ParseAndValidate (mongo_dns m) = inr err ->
        r = ((None, Some (Errorf_w "failed to parse connstring: " err)), st))
  /\ (forall database,
        req_Tables req <> [] ->
        connstring_ParseAndValidate (mongo_dns m) = inl database ->
        (forall i c, req_Tables req !! i = Some c -> answer database i c = None) ->
        r = ((Some TruncateResponse_zero, None),
             mkStore (delete_all DeleteMany database (req_Tables req) (st_db st))
               (st_log st ++ (DbDeleteMany database <$> req_Tables req))))
  /\ (forall database i t cause,
        connstring_ParseAndValidate (mongo_dns m) = inl database ->
        req_Tables req !! i = Some t ->
        (forall j c, (j < i)%nat -> req_Tables req !! j = Some c -> answer database j c = None) ->
        answer database i t = Some cause ->
        r = ((None, Some (Errorf_w ("error truncating collection " +:+ t +:+ ": ") cause)),
             mkStore (delete_all DeleteMany database (take (S i) (req_Tables req)) (st_db st))
               (st_log st ++ (DbDeleteMany database <$> take (S i) (req_Tables req))))
        /\ Contains (Error (Errorf_w ("error truncating collection " +:+ t +:+ ": ") cause)) t
           = true
        /\ errors_Is (Errorf_w ("error truncating collection " +:+ t +:+ ": ") cause) cause
           = true)
  /\ (forall database,
        (forall i c, req_Tables req !! i = Some c -> answer database i c = None)
        \/ exists i t cause,
             req_Tables req !! i = Some t
             /\ (forall j c, (j < i)%nat -> req_Tables req !! j = Some c ->
                   answer database j c = None)
             /\ answer database i t = Some cause).
Proof.
  cbn zeta. unfold Truncate. split; [|split; [|split; [|split]]].
  - intros Hnil. by rewrite Hnil.
  - intros err Hne Hcs. destruct (decide _) as [Hlen|_].
    { by destruct (req_Tables req). }
    by rewrite Hcs.
  - intros database Hne Hcs Hall. destruct (decide _) as [Hlen|_].
    { by destruct (req_Tables req). }
    by rewrite Hcs, truncate_collections_all.
  - intros database i t cause Hcs Hi Hbefore Hfail. destruct (decide _) as [Hlen|_].
    { destruct (req_Tables req); [by rewrite lookup_nil in Hi | done]. }
    rewrite Hcs, (truncate_collections_first_failure database _ st i t cause Hi Hbefore Hfail).
    split; [done|]. split.
    + apply Contains_iff. exists "error truncating collection ", (": " +:+ Error cause).
      unfold Errorf_w. cbn [Error]. by rewrite !append_assoc.
    + apply errors_Is_Errorf_w, errors_Is_refl.
  - intros database. apply truncate_collections_cases.
Qed.

(** X9.  When the connection string parses and the driver lists the
    collections, [ListTables] sends that one request and answers with a set
    that holds exactly the collections listed, each marked [true]; a
    collection listed more than once appears once. *)
Theorem ListTables_holds_the_listed_collections (m : Mongo Client) (st : store (Db := Db))
    (database : string) (db : Db) (collections : list string) :
  connstring_ParseAndValidate (mongo_dns m) = inl database ->
  ListCollectionNames (st_db st) database = (db, inl collections) ->
  exists rsp,
    ListTables connstring_ParseAndValidate ListCollectionNames m st
    = ((Some rsp, None), mkStore db (st_log st ++ [DbListCollectionNames database]))
    /\ (forall c, TableSet rsp !! c = if decide (c ∈ collections) then Some true else None)
    /\ dom (TableSet rsp) = list_to_set collections.
Proof.
  intros Hcs Hlist. unfold ListTables. rewrite Hcs, Hlist.
  eexists. split; [done|]. cbn [TableSet]. split; [apply table_set_lookup|].
  apply set_eq. intros c. rewrite elem_of_dom, table_set_lookup, elem_of_list_to_set.
  destruct (decide (c ∈ collections)) as [Hin|Hnin]; split; try done.
Qed.

(** X10.  Under the same conditions [ListPrimaryKeys] answers with one entry
    per listed collection and no other, and every entry's key list is
    exactly [["_id"]]: one synthetic key per table, also for a collection the
    driver lists twice.  It sends the one request [ListTables] sends. *)
Theorem ListPrimaryKeys_one_id_per_table (m : Mongo Client) (st : store (Db := Db))
    (database : string) (db : Db) (collections : list string) :
  connstring_ParseAndValidate (mongo_dns m) = inl database ->
  ListCollectionNames (st_db st) database = (db, inl collections) ->
  exists rsp,
    ListPrimaryKeys connstring_ParseAndValidate ListCollectionNames m st
    = ((Some rsp, None), mkStore db (st_log st ++ [DbListCollectionNames database]))
    /\ forall c, PKSet rsp !! c
                 = if decide (c ∈ collections) then Some (mkPrimaryKeys ["_id"]) else None.
Proof.
  intros Hcs Hlist. unfold ListPrimaryKeys, ListTables. rewrite Hcs, Hlist.
  eexists. split; [done|]. intros c. cbn [PKSet fmap option_fmap option_map default TableSet].
  unfold id. rewrite primary_keys_lookup, table_set_lookup. by destruct (decide _).
Qed.
End Collections.

Import fixtures.

(** Three tables, the second of which cannot be emptied: the first has been
    emptied, the third is untouched. *)
Lemma Truncate_stops_at_first_failure_witness :
  Truncate parse_connstring delete_many
    (mkMongo tt "mongodb://u:p@host/gidari" defaultMDBLifetime)
    (mkTruncateRequest ["candles"; "locked"; "trades"])
    (mkStore [("candles", [1; 2]); ("locked", [3]); ("trades", [4])] [])
  = ((None, Some (Errorf_w "error truncating collection locked: " (errors_New "not authorized"))),
     mkStore [("candles", []); ("locked", [3]); ("trades", [4])]
       [DbDeleteMany "gidari" "candles"; DbDeleteMany "gidari" "locked"]).
Proof.
  refine (proj1 (proj1 (proj2 (proj2 (proj2
            (Truncate_stops_at_first_failure parse_connstring delete_many
               (mkMongo tt "mongodb://u:p@host/gidari" defaultMDBLifetime)
               (mkTruncateRequest ["candles"; "locked"; "trades"])
               (mkStore [("candles", [1; 2]); ("locked", [3]); ("trades", [4])] [])))))
            "gidari" 1%nat "locked" (errors_New "not authorized") eq_refl eq_refl _ eq_refl)).
  intros [|j] c Hj Hc; [|lia]. injection Hc as <-. reflexivity.
Defined.

(** A database with two collections. *)
Lemma ListTables_holds_the_listed_collections_witness :
  exists rsp,
    ListTables parse_connstring list_collection_names
      (mkMongo tt "mongodb://u:p@host/gidari" defaultMDBLifetime)
      (mkStore [("candles", [1; 2]); ("trades", [4])] [])
    = ((Some rsp, None),
       mkStore [("candles", [1; 2]); ("trades", [4])] ([] ++ [DbListCollectionNames "gidari"]))
    /\ (forall c, TableSet rsp !! c
                  = if decide (c ∈ ["candles"; "trades"]) then Some true else None)
    /\ dom (TableSet rsp) = list_to_set ["candles"; "trades"].
Proof.
  exact (ListTables_holds_the_listed_collections parse_connstring list_collection_names
           (mkMongo tt "mongodb://u:p@host/gidari" defaultMDBLifetime)
           (mkStore [("candles", [1; 2]); ("trades", [4])] [])
           "gidari" [("candles", [1; 2]); ("trades", [4])] ["candles"; "trades"]
           eq_refl eq_refl).
Defined.

Lemma ListPrimaryKeys_one_id_per_table_witness :
  exists rsp,
    ListPrimaryKeys parse_connstring list_collection_names
      (mkMongo tt "mongodb://u:p@host/gidari" defaultMDBLifetime)
      (mkStore [("candles", [1; 2]); ("trades", [4])] [])
    = ((Some rsp, None),
       mkStore [("candles", [1; 2]); ("trades", [4])] ([] ++ [DbListCollectionNames "gidari"]))
    /\ forall c, PKSet rsp !! c
                 = if decide (c ∈ ["candles"; "trades"]) then Some (mkPrimaryKeys ["_id"])
                   else None.
Proof.
  exact (ListPrimaryKeys_one_id_per_table parse_connstring list_collection_names
           (mkMongo tt "mongodb://u:p@host/gidari" defaultMDBLifetime)
           (mkStore [("candles", [1; 2]); ("trades", [4])] [])
           "gidari" [("candles", [1; 2]); ("trades", [4])] ["candles"; "trades"]
           eq_refl eq_refl).
Defined.

End storage_collections.

(** ** storage.go: more on [New] and [Scheme] *)

Module storage_dispatch_more.
Import goerr goerr_facts storage.

Section Dispatch.
Context {Client : Type} (mongo_Connect : string -> Client + error).
Context {Postgres : Type} (NewPostgres : string -> option Postgres * option error).

(** X11.  A non-nil [*Mongo] inside the [Storage] that [New] returns
    remembers the connection string it was made from and has the 60-second
    lifetime; the scheme of its type tag occurs in that connection string;
    and it comes with the nil error.  For a string that contains [mongodb],
    the error is nil exactly when the [Storage] holds such a pointer: when
    the constructor fails, [New] returns the error together with a [Storage]
    that is not the nil interface and holds a nil [*Mongo]. *)
Theorem New_mongo_handle_keeps_connection_string (dns : string) :
  (forall m,
      (New mongo_Connect NewPostgres dns).1 = Some (StorageMongo (Some m)) ->
      mongo_dns m = dns
      /\ mongo_lifetime m = 60 * 1000000000
      /\ Contains (mongo_dns m) (Scheme (Mongo_Type m)) = true
      /\ (New mongo_Connect NewPostgres dns).2 = None)
  /\ (Contains dns "mongodb" = true ->
      ((New mongo_Connect NewPostgres dns).2 = None ->
       exists m, (New mongo_Connect NewPostgres dns).1 = Some (StorageMongo (Some m)))
      /\ (forall err,
            (New mongo_Connect NewPostgres dns).2 = Some err ->
            (New mongo_Connect NewPostgres dns).1 = Some (StorageMongo None)
            /\ exists cause, mongo_Connect dns = inr cause
                             /\ err = Errorf_w "error connecting to mongo: " cause)).
Proof.
  unfold New. change (Scheme MongoType) with "mongodb".
  destruct (Contains dns "mongodb") eqn:Hm.
  - unfold NewMongo, as_Storage. destruct (mongo_Connect dns) as [client|cause]; cbn.
    + split; [by intros m [= <-]|]. intros _. split; [by eexists | done].
    + split; [done|]. intros _. split; [done|]. intros err [= <-]. split; [done|].
      by exists cause.
  - split; [|done]. destruct (Contains dns (Scheme PostgresType)); [|done].
    unfold as_Storage. cbn. done.
Qed.

(** X12.  [Scheme] and [New] agree: a connection string that begins with
    the scheme of the document store is handed to the document-store
    constructor; one that begins with the scheme of the relational store is
    handed to the relational constructor unless [mongodb] occurs later in
    it; and one that begins with the scheme of any other type tag
    ([unknown]) and mentions neither token is refused. *)
Theorem New_follows_Scheme (rest : string) :
  New mongo_Connect NewPostgres (Scheme MongoType +:+ rest)
  = as_Storage StorageMongo (NewMongo mongo_Connect (Scheme MongoType +:+ rest))
  /\ (Contains rest "mongodb" = false ->
      New mongo_Connect NewPostgres (Scheme PostgresType +:+ rest)
      = as_Storage StoragePostgres (NewPostgres (Scheme PostgresType +:+ rest)))
  /\ (forall t,
      t <> MongoType -> t <> PostgresType ->
      Contains rest "mongodb" = false -> Contains rest "postgresql" = false ->
      New mongo_Connect NewPostgres (Scheme t +:+ rest)
      = (None, Some (DNSNotSupportedError (Scheme t +:+ rest)))).
Proof.
  split; [|split].
  - unfold New. change (Scheme MongoType) with "mongodb".
    replace (Contains ("mongodb" +:+ rest) "mongodb") with true; [done|].
    symmetry. apply Contains_iff. by exists EmptyString, rest.
  - intros Hm. unfold New. change (Scheme MongoType) with "mongodb".
    change (Scheme PostgresType) with "postgresql".
    change (Contains ("postgresql" +:+ rest) "mongodb") with (Contains rest "mongodb").
    rewrite Hm.
    replace (Contains ("postgresql" +:+ rest) "postgresql") with true; [done|].
    symmetry. apply Contains_iff. by exists EmptyString, rest.
  - intros t Ht1 Ht2 Hm Hp. unfold Scheme.
    rewrite !decide_False by done. unfold New.
    change (Scheme MongoType) with "mongodb". change (Scheme PostgresType) with "postgresql".
    change (Contains ("unknown" +:+ rest) "mongodb") with (Contains rest "mongodb").
    change (Contains ("unknown" +:+ rest) "postgresql") with (Contains rest "postgresql").
    by rewrite Hm, Hp.
Qed.
End Dispatch.

(** A connection string the driver accepts, and one it refuses. *)
Lemma New_mongo_handle_keeps_connection_string_witness :
  (mongo_dns (mkMongo "mongodb://u:p@host/db" "mongodb://u:p@host/db" defaultMDBLifetime)
   = "mongodb://u:p@host/db"
   /\ mongo_lifetime (mkMongo "mongodb://u:p@host/db" "mongodb://u:p@host/db"
                        defaultMDBLifetime)
      = 60 * 1000000000
   /\ Contains (mongo_dns (mkMongo "mongodb://u:p@host/db" "mongodb://u:p@host/db"
                             defaultMDBLifetime))
        (Scheme (Mongo_Type (mkMongo "mongodb://u:p@host/db" "mongodb://u:p@host/db"
                               defaultMDBLifetime))) = true
   /\ (New fixtures.connect fixtures.new_postgres "mongodb://u:p@host/db").2 = None)
  /\ (New fixtures.connect fixtures.new_postgres "mongodb:u:p@host/db").1
     = Some (StorageMongo None).
Proof.
  split.
  - exact (proj1 (New_mongo_handle_keeps_connection_string fixtures.connect
                    fixtures.new_postgres "mongodb://u:p@host/db")
             (mkMongo "mongodb://u:p@host/db" "mongodb://u:p@host/db" defaultMDBLifetime)
             eq_refl).
  - exact (proj1 (proj2 (proj2 (New_mongo_handle_keeps_connection_string fixtures.connect
                                  fixtures.new_postgres "mongodb:u:p@host/db") eq_refl)
                    _ eq_refl)).
Defined.

End storage_dispatch_more.

(** ** request.go: more on flattening *)

Module transport_flatten_more.
Import goerr transport transport_flatten.

Section Flatten.
Context `{!NetURL} {Time : Type} `{!TimeFormat Time} {Client : Type}.
Implicit Types (req : Request Time) (ts : timeseries Time) (client : Client) (h : heap).

(** A successful [newFetchConfig], with the URL it parsed. *)
Lemma newFetchConfig_inv_url req rawURI client h fc h' :
  newFetchConfig req rawURI client h = Returned (inl fc, h') ->
  exists raw uri cfg period burst,
    url_JoinPath rawURI (Endpoint req) = inl raw /\ url_Parse raw = inl uri
    /\ RateLimit req = Some cfg /\ Period cfg = Some period /\ Burst cfg = Some burst
    /\ fc = mkFetchConfig (Method req)
              (match Query req with
               | None => uri
               | Some _ =>
                   mkURL (url_rest uri)
                     (Values_Encode (set_all (map_contents h (Query req))
                                       (url_ParseQuery (RawQuery uri))))
               end) client (length (h_limiters h))
    /\ h' = mkHeap (h_maps h) (h_limiters h ++ [mkLimiter (rate_Every period) burst]).
Proof.
  unfold newFetchConfig.
  destruct (url_JoinPath rawURI (Endpoint req)) as [raw|err]; [|done].
  destruct (url_Parse raw) as [uri|err] eqn:Hparse; [|done].
  destruct (RateLimit req) as [cfg|]; [|done]. cbn [deref mbind outcome_bind].
  destruct (Period cfg) as [period|] eqn:Hp; [|done]. cbn [deref mbind outcome_bind].
  destruct (Burst cfg) as [burst|] eqn:Hb; [|done].
  cbn [deref mbind outcome_bind rate_NewLimiter].
  intros [= <- <-]. by exists raw, uri, cfg, period, burst.
Qed.

(** What all the requests a successful chunk loop has built have in common,
    and what the loop has allocated. *)
Lemma flatten_chunks_common req ts rawURI client todo requests h reqs h' :
  flatten_chunks req ts rawURI client todo requests h = Returned ((reqs, None), h') ->
  exists news,
    reqs = requests ++ news
    /\ (forall cfg period burst,
          RateLimit req = Some cfg -> Period cfg = Some period -> Burst cfg = Some burst ->
          h_limiters h'
          = h_limiters h ++ replicate (length todo) (mkLimiter (rate_Every period) burst))
    /\ (forall fr, fr ∈ news ->
          fc_Method (fetchConfig fr) = Method req
          /\ fc_C (fetchConfig fr) = client
          /\ table fr = Table req
          /\ forall l raw uri,
               Query req = Some l ->
               url_JoinPath rawURI (Endpoint req) = inl raw -> url_Parse raw = inl uri ->
               url_rest (fc_URL (fetchConfig fr)) = url_rest uri
               /\ exists q,
                    RawQuery (fc_URL (fetchConfig fr)) = Values_Encode q
                    /\ forall k, k <> StartName ts -> k <> EndName ts ->
                         q !! k = match map_contents h (Some l) !! k with
                                  | Some v => Some [v]
                                  | None => url_ParseQuery (RawQuery uri) !! k
                                  end).
Proof.
  revert requests h. induction todo as [|chunk todo IH]; intros requests h.
  - intros [= <- <-]. exists []. rewrite app_nil_r. split; [done|]. split.
    + intros. cbn. by rewrite app_nil_r.
    + intros fr Hfr. by apply elem_of_nil in Hfr.
  - cbn [flatten_chunks].
    destruct (Layout ts) as [layout|] eqn:Hlayout; [|done]. cbn [deref mbind outcome_bind].
    destruct (Query req) as [l|] eqn:Hquery; [|done].
    rewrite map_assign_Some. cbn [mbind outcome_bind].
    rewrite map_assign_Some, map_contents_assign. cbn [mbind outcome_bind h_maps h_limiters].
    set (m2 := <[EndName ts := _]> _).
    set (h2 := mkHeap _ _).
    assert (Hm2 : map_contents h2 (Some l) = m2) by apply map_contents_assign.
    destruct (newFetchConfig req rawURI client h2) as [[[fc|err] h3]|p] eqn:Hfc; [|done|done].
    intros Hrec. apply IH in Hrec as (news & -> & Hlim & Hall).
    apply newFetchConfig_inv_url in Hfc
      as (raw & uri & cfg & period & burst & Hjoin & Hparse & Hrl & Hp & Hb & -> & ->).
    exists (mkFlattenedRequest
              (mkFetchConfig (Method req)
                 (match Query req with
                  | None => uri
                  | Some _ =>
                      mkURL (url_rest uri)
                        (Values_Encode (set_all (map_contents h2 (Query req))
                                          (url_ParseQuery (RawQuery uri))))
                  end) client (length (h_limiters h2))) (Table req) :: news).
    split; [by rewrite <- app_assoc|]. split.
    + intros cfg' period' burst' Hrl' Hp' Hb'.
      rewrite (Hlim _ _ _ Hrl' Hp' Hb'). cbn [h_limiters replicate length].
      rewrite <- app_assoc. cbn [app]. subst h2. cbn [h_limiters].
      do 3 f_equal; congruence.
    + assert (Hkeep : forall k, k <> StartName ts -> k <> EndName ts ->
                 m2 !! k = map_contents h (Some l) !! k).
      { intros k Hs He. subst m2. by rewrite !lookup_insert_ne. }
      intros fr [->|Hfr]%elem_of_cons.
      * cbn [fetchConfig table fc_Method fc_C fc_URL]. do 3 (split; [done|]).
        intros l' raw' uri' [= <-] Hjoin' Hparse'.
        rewrite Hjoin in Hjoin'. injection Hjoin' as <-.
        rewrite Hparse in Hparse'. injection Hparse' as <-.
        rewrite Hquery. cbn [url_rest RawQuery]. split; [done|].
        eexists. split; [done|]. intros k Hs He.
        rewrite <- Hquery, set_all_lookup, Hquery, Hm2. by rewrite Hkeep.
      * destruct (Hall fr Hfr) as (Hmeth & Hc & Htab & Hq). do 3 (split; [done|]).
        intros l' raw' uri' Hl' Hjoin' Hparse'.
        destruct (Hq l' raw' uri' Hl' Hjoin' Hparse') as (Hrest & q & Hraw & Hk).
        split; [done|]. exists q. split; [done|]. intros k Hs He.
        rewrite (Hk k Hs He). injection Hl' as <-.
        change (map_contents (mkHeap (h_maps h2) _) (Some l)) with (map_contents h2 (Some l)).
        by rewrite Hm2, Hkeep.
Qed.

(** X13.  Flattening a request without time series whose URL can be built
    and whose rate-limit configuration is there yields exactly one flattened
    request, bound to the request's table, method and client.  Its URL is
    the parsed join of base URI and endpoint, left as parsed when the
    request has no query map.  No map is written, and one limiter is
    allocated, with the configured burst and one event per period. *)
Theorem flatten_without_timeseries req rawURI client h raw uri cfg period burst :
  Timeseries req = None ->
  url_JoinPath rawURI (Endpoint req) = inl raw ->
  url_Parse raw = inl uri ->
  RateLimit req = Some cfg -> Period cfg = Some period -> Burst cfg = Some burst ->
  exists fr,
    flattenTimeseries req rawURI client h
    = Returned (([fr], None),
                mkHeap (h_maps h) (h_limiters h ++ [mkLimiter (rate_Every period) burst]))
    /\ table fr = Table req
    /\ fc_Method (fetchConfig fr) = Method req
    /\ fc_C (fetchConfig fr) = client
    /\ fc_RateLimiter (fetchConfig fr) = length (h_limiters h)
    /\ url_rest (fc_URL (fetchConfig fr)) = url_rest uri
    /\ (Query req = None -> fc_URL (fetchConfig fr) = uri).
Proof.
  intros Hts Hjoin Hparse Hrl Hp Hb.
  unfold flattenTimeseries, flatten, newFetchConfig.
  rewrite Hts, Hjoin, Hparse, Hrl. cbn [deref mbind outcome_bind].
  rewrite Hp. cbn [deref mbind outcome_bind]. rewrite Hb.
  cbn [deref mbind outcome_bind rate_NewLimiter].
  eexists. split; [done|]. cbn [table fetchConfig fc_Method fc_C fc_RateLimiter fc_URL].
  repeat split; try done.
  - by destruct (Query req).
  - by intros ->.
Qed.

(** X14.  When a request has a query map, the query that [newFetchConfig]
    encodes into the URL is the query of the URL it parsed from the join of
    base URI and endpoint, with the request's parameters laid over it: a key
    of the request's map is bound to the request's value alone, replacing
    whatever values the parsed URL had for it, and every other key keeps the
    parsed URL's values. *)
Theorem request_params_override_endpoint_params req rawURI client h fc h' (l : nat) :
  Query req = Some l ->
  newFetchConfig req rawURI client h = Returned (inl fc, h') ->
  exists raw uri q,
    url_JoinPath rawURI (Endpoint req) = inl raw /\ url_Parse raw = inl uri
    /\ fc_URL fc = mkURL (url_rest uri) (Values_Encode q)
    /\ forall k,
         q !! k = match map_contents h (Some l) !! k with
                  | Some v => Some [v]
                  | None => url_ParseQuery (RawQuery uri) !! k
                  end.
Proof.
  intros Hquery Hrun.
  apply newFetchConfig_inv_url in Hrun
    as (raw & uri & cfg & period & burst & Hjoin & Hparse & _ & _ & _ & -> & _).
  exists raw, uri. rewrite Hquery. eexists. split; [done|]. split; [done|].
  split; [done|]. intros k. by rewrite set_all_lookup.
Qed.

(** X15.  The flattened requests of a time series differ only in the two
    bounds: every one of them has the request's method, client and table
    and the same URL outside the query, and in its query every key other
    than [StartName] and [EndName] is bound as the request's map had it
    before flattening, and, when the map has no such key, to the values
    that key has in the query of the URL parsed from the join of base URI
    and endpoint. *)
Theorem chunk_requests_differ_only_in_bounds req ts rawURI client h reqs h'
    (l : nat) (raw : string) (uri : URL) :
  Timeseries req = Some ts ->
  Query req = Some l ->
  url_JoinPath rawURI (Endpoint req) = inl raw -> url_Parse raw = inl uri ->
  flattenTimeseries req rawURI client h = Returned ((reqs, None), h') ->
  forall fr, fr ∈ reqs ->
    fc_Method (fetchConfig fr) = Method req
    /\ fc_C (fetchConfig fr) = client
    /\ table fr = Table req
    /\ url_rest (fc_URL (fetchConfig fr)) = url_rest uri
    /\ exists q,
         RawQuery (fc_URL (fetchConfig fr)) = Values_Encode q
         /\ forall k, k <> StartName ts -> k <> EndName ts ->
              q !! k = match map_contents h (Query req) !! k with
                       | Some v => Some [v]
                       | None => url_ParseQuery (RawQuery uri) !! k
                       end.
Proof.
  intros Hts Hquery Hjoin Hparse. unfold flattenTimeseries. rewrite Hts. intros Hrun fr Hfr.
  apply flatten_chunks_common in Hrun as (news & -> & _ & Hall).
  rewrite app_nil_l in Hfr. destruct (Hall fr Hfr) as (Hm & Hc & Ht & Hq).
  destruct (Hq l raw uri Hquery Hjoin Hparse) as (Hrest & q & Hraw & Hk).
  do 4 (split; [done|]). exists q. split; [done|]. by rewrite Hquery.
Qed.

(** X16.  A successful flattening of a time series leaves the limiters that
    existed untouched and appends one limiter per chunk, each with the
    configured burst and one event per configured period; a period that is
    not positive gives limiters that do not limit ([rate.Inf]). *)
Theorem limiters_come_from_the_configuration req ts rawURI client h reqs h'
    (cfg : RateLimitConfig) (period burst : Z) :
  Timeseries req = Some ts ->
  RateLimit req = Some cfg -> Period cfg = Some period -> Burst cfg = Some burst ->
  flattenTimeseries req rawURI client h = Returned ((reqs, None), h') ->
  h_limiters h'
  = h_limiters h ++ replicate (length (chunks ts)) (mkLimiter (rate_Every period) burst)
  /\ (period <= 0 ->
      forall i lim, (length (h_limiters h) <= i)%nat -> h_limiters h' !! i = Some lim ->
                    lim_limit lim = Inf).
Proof.
  intros Hts Hrl Hp Hb. unfold flattenTimeseries. rewrite Hts. intros Hrun.
  apply flatten_chunks_common in Hrun as (news & _ & Hlim & _).
  specialize (Hlim _ _ _ Hrl Hp Hb). split; [done|].
  intros Hneg i lim Hi Hlook. rewrite Hlim in Hlook.
  rewrite lookup_app_r in Hlook by done.
  apply lookup_replicate in Hlook as [-> _]. cbn. unfold rate_Every.
  by rewrite decide_True.
Qed.

(** X17.  A flattening that fails on the URL at the first chunk has already
    written that chunk's two bounds into the request's query map; it has
    allocated no limiter. *)
Theorem failed_flattening_has_written_the_query req ts rawURI client h
    (chunk : Time * Time) (rest : list (Time * Time)) (l : nat) (layout : string) (e0 : error) :
  Timeseries req = Some ts -> chunks ts = chunk :: rest ->
  Query req = Some l -> Layout ts = Some layout ->
  url_error rawURI (Endpoint req) = Some e0 ->
  exists h',
    flattenTimeseries req rawURI client h
    = Returned (([], Some (Errorf_w "failed to create fetch config: " e0)), h')
    /\ map_contents h' (Query req)
       = <[EndName ts := Time_Format chunk.2 layout]>
           (<[StartName ts := Time_Format chunk.1 layout]> (map_contents h (Query req)))
    /\ h_limiters h' = h_limiters h.
Proof.
  intros Hts Hchunks Hq Hl Hurl.
  unfold flattenTimeseries. rewrite Hts, Hchunks. cbn [flatten_chunks].
  rewrite Hl, Hq. cbn [deref mbind outcome_bind].
  rewrite map_assign_Some. cbn [mbind outcome_bind].
  rewrite map_assign_Some, map_contents_assign. cbn [mbind outcome_bind h_maps h_limiters].
  rewrite (newFetchConfig_url_error _ _ _ _ _ Hurl). cbn [mbind outcome_bind].
  eexists. split; [done|]. by rewrite map_contents_assign.
Qed.

(** X18.  What a time series without what the loop needs does.  With no
    chunk, flattening returns the empty list and no error without looking at
    the URL or the rate-limit configuration.  With a chunk and a nil layout
    it panics on the nil pointer before anything is written; with a chunk, a
    layout and a nil query map it panics on the assignment to the nil map.
    In neither case is an error returned. *)
Theorem timeseries_edge_cases req ts rawURI client h :
  Timeseries req = Some ts ->
  (chunks ts = [] -> flattenTimeseries req rawURI client h = Returned (([], None), h))
  /\ (chunks ts <> [] -> Layout ts = None ->
      flattenTimeseries req rawURI client h = Panicked NilPointerDereference)
  /\ (chunks ts <> [] -> Layout ts <> None -> Query req = None ->
      flattenTimeseries req rawURI client h = Panicked NilMapAssignment).
Proof.
  intros Hts. unfold flattenTimeseries. rewrite Hts. split; [|split].
  - by intros ->.
  - intros Hne Hl. destruct (chunks ts) as [|chunk rest]; [done|].
    cbn [flatten_chunks]. by rewrite Hl.
  - intros Hne Hl Hq. destruct (chunks ts) as [|chunk rest]; [done|].
    cbn [flatten_chunks]. destruct (Layout ts); [|done]. by rewrite Hq.
Qed.
End Flatten.

Import fixtures.

Lemma flatten_without_timeseries_witness :
  exists fr,
    flattenTimeseries products "https://api.example.com" 7%nat heap0
    = Returned (([fr], None),
                mkHeap (h_maps heap0)
                  (h_limiters heap0 ++ [mkLimiter (rate_Every 1000000000) 3]))
    /\ table fr = Table products
    /\ fc_Method (fetchConfig fr) = Method products
    /\ fc_C (fetchConfig fr) = 7%nat
    /\ fc_RateLimiter (fetchConfig fr) = length (h_limiters heap0)
    /\ url_rest (fc_URL (fetchConfig fr))
       = url_rest (mkURL "https://api.example.com/products" "")
    /\ (Query products = None
        -> fc_URL (fetchConfig fr) = mkURL "https://api.example.com/products" "").
Proof.
  exact (flatten_without_timeseries products "https://api.example.com" 7%nat heap0
           "https://api.example.com/products" (mkURL "https://api.example.com/products" "")
           one_per_second 1000000000 3 eq_refl eq_refl eq_refl eq_refl eq_refl eq_refl).
Defined.

Lemma request_params_override_endpoint_params_witness :
  exists raw uri q,
    url_JoinPath "https://api.example.com" (Endpoint candles) = inl raw
    /\ url_Parse raw = inl uri
    /\ fc_URL (mkFetchConfig "GET" (mkURL "https://api.example.com/candles" "granularity=60")
                 7%nat 0%nat)
       = mkURL (url_rest uri) (Values_Encode q)
    /\ forall k,
         q !! k = match map_contents heap0 (Some 0%nat) !! k with
                  | Some v => Some [v]
                  | None => url_ParseQuery (RawQuery uri) !! k
                  end.
Proof.
  exact (request_params_override_endpoint_params candles "https://api.example.com" 7%nat heap0
           (mkFetchConfig "GET" (mkURL "https://api.example.com/candles" "granularity=60")
              7%nat 0%nat)
           (mkHeap (h_maps heap0) [mkLimiter (OnePer 1000000000) 3]) 0%nat eq_refl eq_refl).
Defined.

Lemma chunk_requests_differ_only_in_bounds_witness :
  exists reqs h',
    flattenTimeseries candles "https://api.example.com" 7%nat heap0 = Returned ((reqs, None), h')
    /\ forall fr, fr ∈ reqs ->
         fc_Method (fetchConfig fr) = Method candles
         /\ fc_C (fetchConfig fr) = 7%nat
         /\ table fr = Table candles
         /\ url_rest (fc_URL (fetchConfig fr))
            = url_rest (mkURL "https://api.example.com/candles" "")
         /\ exists q,
              RawQuery (fc_URL (fetchConfig fr)) = Values_Encode q
              /\ forall k, k <> StartName two_chunks -> k <> EndName two_chunks ->
                   q !! k = match map_contents heap0 (Query candles) !! k with
                            | Some v => Some [v]
                            | None =>
                                url_ParseQuery
                                  (RawQuery (mkURL "https://api.example.com/candles" "")) !! k
                            end.
Proof.
  eexists _, _. split; [vm_compute; reflexivity|].
  exact (chunk_requests_differ_only_in_bounds candles two_chunks "https://api.example.com"
           7%nat heap0 _ _ 0%nat "https://api.example.com/candles"
           (mkURL "https://api.example.com/candles" "") eq_refl eq_refl eq_refl eq_refl eq_refl).
Defined.

Lemma limiters_come_from_the_configuration_witness :
  exists reqs h',
    flattenTimeseries candles "https://api.example.com" 7%nat heap0 = Returned ((reqs, None), h')
    /\ h_limiters h'
       = h_limiters heap0
         ++ replicate (length (chunks two_chunks)) (mkLimiter (rate_Every 1000000000) 3).
Proof.
  eexists _, _. split; [vm_compute; reflexivity|].
  exact (proj1 (limiters_come_from_the_configuration candles two_chunks
                  "https://api.example.com" 7%nat heap0 _ _ one_per_second 1000000000 3
                  eq_refl eq_refl eq_refl eq_refl eq_refl)).
Defined.

Lemma failed_flattening_has_written_the_query_witness :
  exists h',
    flattenTimeseries candles "https://api example.com" 7%nat heap0
    = Returned (([], Some (Errorf_w "failed to create fetch config: "
                             (Errorf_w "failed to join URI and endpoint: "
                                (errors_New "invalid character in host name")))), h')
    /\ map_contents h' (Query candles)
       = <[EndName two_chunks := Time_Format (0, 100).2 "unix"]>
           (<[StartName two_chunks := Time_Format (0, 100).1 "unix"]>
              (map_contents heap0 (Query candles)))
    /\ h_limiters h' = h_limiters heap0.
Proof.
  exact (failed_flattening_has_written_the_query candles two_chunks "https://api example.com"
           7%nat heap0 (0, 100) [(100, 200)] 0%nat "unix"
           (Errorf_w "failed to join URI and endpoint: "
              (errors_New "invalid character in host name"))
           eq_refl eq_refl eq_refl eq_refl eq_refl).
Defined.

(** A time series with two chunks on a request whose query map is nil. *)
Lemma timeseries_edge_cases_witness :
  flattenTimeseries (mkRequest "GET" "/candles" None (Some two_chunks) None (Some one_per_second))
    "https://api.example.com" 7%nat heap0
  = Panicked NilMapAssignment.
Proof.
  exact (proj2 (proj2 (timeseries_edge_cases
                         (mkRequest "GET" "/candles" None (Some two_chunks) None
                            (Some one_per_second))
                         two_chunks "https://api.example.com" 7%nat heap0 eq_refl))
           ltac:(discriminate) ltac:(discriminate) eq_refl).
Defined.

End transport_flatten_more.
